(** * Lightverse: resize_lv_textures_and_export.py

    A shallow embedding of the Blender batch script that downsamples the
    textures of the [LV_] materials of every [.glb] model under an input
    directory, together with the properties of the script that its
    specification states.

    Layout: Python results and exceptions; binary64 arithmetic as Python
    performs it on integers; the host (bpy) data model; [resize_image];
    [get_images_from_material]; [parse_cli_args]; paths and the log; then,
    over an arbitrary host, the file system, [process_model] and [main];
    a concrete host and worlds to run the script in; the properties. *)

From Stdlib Require Import ZArith Lia Bool List Ascii String SpecFloat.
From Stdlib Require OrderedTypeEx.
From stdpp Require Import base gmap sets list strings sorting.

Local Open Scope Z_scope.

(** ** Python results

    A call either returns a value or raises.  Only the exception classes
    the script can meet are listed. *)

Inductive exn : Type :=
  | OverflowError
  | ZeroDivisionError
  | RuntimeError
  | ValueError (msg : string)
  | FileNotFoundError (path : list string)
  | OSError.

Inductive result (A : Type) : Type :=
  | Ok (a : A)
  | Raise (e : exn).

Arguments Ok {A} a.
Arguments Raise {A} e.

(** Sequencing: the first exception raised propagates.  With this
    instance stdpp's [x ← r; k] is Python's statement sequence. *)
#[global] Instance result_bind : MBind result := λ A B k r,
  match r with
  | Ok a => k a
  | Raise e => Raise e
  end.

(** ** Binary64 arithmetic

    Python's [float] is IEEE-754 binary64.  A finite float is kept as the
    exact fraction [fnum / fden] it denotes, with [fden] a power of two.
    Every operation the script uses is correctly rounded (round to nearest,
    ties to even), so each is "round the exact rational result":
    [round_nearest a b] rounds [a / b].  Precision is 53 bits, the least
    exponent of the last place is -1074 (subnormals), and a result that
    rounds to 2^1024 or more overflows.  That the result is a nearest
    double, even on ties, is [fl_pos_nearest] below; agreement with the
    Standard Library's [SpecFloat] on samples is
    [scaled_minor_agrees_with_SpecFloat]. *)

Record float : Type := Float { fnum : Z; fden : Z }.

Definition prec : Z := 53.
Definition emin : Z := -1074.
Definition emax : Z := 1024.

(** [a / b] rounded to the nearest integer, ties to even ([0 < b]). *)
Definition rnd_half_even (a b : Z) : Z :=
  let q := a / b in
  let r := a mod b in
  match 2 * r ?= b with
  | Lt => q
  | Gt => q + 1
  | Eq => if Z.even q then q else q + 1
  end.

(** The unit in the last place is [2 ^ (- t)]; [upscale t / downscale t]
    is [2 ^ t] for either sign of [t]. *)
Definition upscale (t : Z) : Z := 2 ^ Z.max 0 t.
Definition downscale (t : Z) : Z := 2 ^ Z.max 0 (- t).

(** The shift [t] that brings [a / b] into [[2^52, 2^53)], capped at the
    subnormal exponent. *)
Definition fl_shift (a b : Z) : Z :=
  let t := (prec - 1) - (Z.log2 a - Z.log2 b) in
  let t' := if a * upscale t <? 2 ^ (prec - 1) * (b * downscale t)
            then t + 1 else t in
  Z.min t' (- emin).

(** Rounding of a positive rational; [None] is overflow. *)
Definition fl_pos (a b : Z) : option float :=
  let t := fl_shift a b in
  let m := rnd_half_even (a * upscale t) (b * downscale t) in
  if 2 ^ emax * upscale t <=? m * downscale t then None
  else Some (Float (m * downscale t) (upscale t)).

(** Rounding of [a / b] for [0 < b]. *)
Definition round_nearest (a b : Z) : option float :=
  match a ?= 0 with
  | Eq => Some (Float 0 1)
  | Gt => fl_pos a b
  | Lt => match fl_pos (- a) b with
          | Some f => Some (Float (- fnum f) (fden f))
          | None => None
          end
  end.

Definition overflow_check (o : option float) : result float :=
  match o with
  | Some f => Ok f
  | None => Raise OverflowError
  end.

(** [a / b] on Python integers: the correctly rounded quotient. *)
Definition true_div (a b : Z) : result float :=
  if b =? 0 then Raise ZeroDivisionError
  else overflow_check (round_nearest (a * Z.sgn b) (Z.abs b)).

(** The implicit [float(n)] of a mixed [float * int] product. *)
Definition float_of_int (n : Z) : result float :=
  overflow_check (round_nearest n 1).

(** [x * y] on floats.  An overflowing product is an infinity in Python;
    the script hands every product straight to [int], which raises
    [OverflowError] on an infinity, so the overflow is raised here. *)
Definition float_mul (x y : float) : result float :=
  overflow_check (round_nearest (fnum x * fnum y) (fden x * fden y)).

(** [x * n] with [n] an integer. *)
Definition float_mul_int (x : float) (n : Z) : result float :=
  y ← float_of_int n;
  float_mul x y.

(** [int(x)]: truncation toward zero. *)
Definition int_of_float (x : float) : Z := Z.quot (fnum x) (fden x).

(** ** The host data model (bpy) *)

(** Width and height of a host image are C [int]s. *)
Definition INT_MAX : Z := 2 ^ 31 - 1.

(** [bpy.types.Image]: [img.name], [img.size], and [img.has_data], the
    presence of a pixel buffer; [img.scale] needs one. *)
Record Image : Type := mkImage {
  img_name : string;
  img_size : Z * Z;
  img_has_data : bool
}.

(** [img.scale(new_width, new_height)]: in place; raises on an image
    without pixel data. *)
Definition scale (img : Image) (new_width new_height : Z) : result Image :=
  if img_has_data img
  then Ok (mkImage (img_name img) (new_width, new_height) (img_has_data img))
  else Raise RuntimeError.

(** Images are host datablocks: a Python set of images is a set of
    references, and [img.scale] acts on the datablock behind one. *)
Definition img_ref : Type := positive.

(** A shader node: [node.type] and [getattr(node, "image", None)]. *)
Record Node : Type := mkNode {
  node_type : string;
  node_image : option img_ref
}.

(** [bpy.types.Material]: [mat.name], [mat.use_nodes], [mat.node_tree]
    ([None], or the nodes of the tree). *)
Record Material : Type := mkMaterial {
  mat_name : string;
  mat_use_nodes : bool;
  mat_node_tree : option (list Node)
}.

(** [bpy.data]: the materials and the image datablocks. *)
Record Document : Type := mkDocument {
  doc_materials : list Material;
  doc_images : gmap img_ref Image
}.

Definition empty_document : Document := mkDocument [] ∅.

(** ** resize_image *)

(** [int((max_size / major) * minor)] *)
Definition scaled_minor (max_size major minor : Z) : result Z :=
  ratio ← true_div max_size major;
  prod ← float_mul_int ratio minor;
  Ok (int_of_float prod).

(** The target size of lines 25-30. *)
Definition new_size (width height max_size : Z) : result (Z * Z) :=
  if height <=? width then
    v ← scaled_minor max_size width height;
    Ok (max_size, Z.max 1 v)
  else
    v ← scaled_minor max_size height width;
    Ok (Z.max 1 v, max_size).

(** Returns the "was resized" flag and the image after the call.  The
    argument is an image of the working set, hence never [None] and always
    with a [size]. *)
Definition resize_image (img : Image) (max_size : Z) : result (bool * Image) :=
  let '(width, height) := img_size img in
  if (width <=? 0) || (height <=? 0) then Ok (false, img)
  else if (width <=? max_size) && (height <=? max_size) then Ok (false, img)
  else
    '(new_width, new_height) ← new_size width height max_size;
    img' ← scale img new_width new_height;
    Ok (true, img').

(** ** get_images_from_material *)

Definition get_images_from_material (mat : option Material) : gset img_ref :=
  match mat with
  | None => ∅
  | Some m =>
    if negb (mat_use_nodes m) then ∅
    else match mat_node_tree m with
         | None => ∅
         | Some nodes =>
           foldl (λ (images : gset img_ref) node,
                    if String.eqb (node_type node) "TEX_IMAGE"
                    then match node_image node with
                         | Some image => images ∪ {[ image ]}
                         | None => images
                         end
                    else images)
                 ∅ nodes
         end
  end.

(** ** parse_cli_args *)

(** [sys.argv[sys.argv.index("--") + 1:]], or [None] without a ["--"]. *)
Fixpoint after_separator (argv : list string) : option (list string) :=
  match argv with
  | [] => None
  | token :: rest =>
    if String.eqb token "--" then Some rest else after_separator rest
  end.

Definition is_flag (token : string) : bool :=
  String.eqb token "--input" || String.eqb token "--output"
  || String.eqb token "--max_size".

(** The [while] loop over [tail], [args] being the dictionary so far. *)
Fixpoint parse_tail (tail : list string) (args : gmap string string)
  : result (gmap string string) :=
  match tail with
  | [] => Ok args
  | token :: rest =>
    if is_flag token then
      match rest with
      | [] => Raise (ValueError ("Missing value for " +:+ token))
      | value :: rest' => parse_tail rest' (<[token := value]> args)
      end
    else parse_tail rest args
  end.

Definition parse_cli_args (argv : list string) : result (gmap string string) :=
  match after_separator argv with
  | None => Ok ∅
  | Some tail => parse_tail tail ∅
  end.

(** ** Paths and the log *)

(** A resolved absolute path, as its components below the root.  There
    are no symbolic links, so [resolve()] leaves such a path as it is. *)
Abbreviation Path := (list string).

(** [name] matches the pattern [*.glb]. *)
Definition is_glb_name (name : string) : bool :=
  let n := String.length name in
  (4 <=? n)%nat && String.eqb (String.substring (n - 4) 4 name) ".glb".

Definition matches_glb (p : Path) : bool :=
  match last p with
  | Some name => is_glb_name name
  | None => false
  end.

(** Lexicographic order on components, the order of [sorted] on paths. *)
Fixpoint path_leb (p q : Path) : bool :=
  match p, q with
  | [], _ => true
  | _ :: _, [] => false
  | a :: p', b :: q' =>
    if String.eqb a b then path_leb p' q' else String.leb a b
  end.

(** One line of output of [log], by the statement that prints it. *)
Inductive LogLine : Type :=
  | LogProcessing (input_path : Path)
  | LogResized (name : string) (w h w' h' : Z)
  | LogKept (name : string) (w h : Z)
  | LogWarning (name : string) (e : exn)
  | LogTexturesResized (resized_count : nat)
  | LogExported (output_path : Path)
  | LogNoFiles (input_dir : Path)
  | LogHeader (input_dir output_dir : Path) (max_size : Z) (files : nat)
  | LogSkipping (rel : Path)
  | LogError (rel : Path) (e : exn)
  | LogBlank
  | LogSummary (processed skipped failed : nat).

(** The header of lines 165-172 and the summary of lines 199-204 are one
    [LogLine] each. *)

(** ** The host and the platform

    What the script takes from its environment without defining it.  The
    theorems hold for every host. *)

Section Host.

(** The content of a file. *)
Variable FileData : Type.
(** [bpy.ops.import_scene.gltf] into the empty document. *)
Variable import_gltf : FileData → result Document.
(** [bpy.ops.export_scene.gltf] with [export_format="GLB"]. *)
Variable export_gltf : Document → result FileData.
(** [int(s)] on a string; [None] is its [ValueError]. *)
Variable py_int : string → option Z.
(** [Path(s).expanduser().resolve()]. *)
Variable resolve_path : string → Path.

(** The file system maps the paths that exist to what is there. *)
Inductive Entry : Type :=
  | File (data : FileData)
  | Dir.

(** The state the script acts on: the file system, the document loaded
    in the host, and the lines printed so far. *)
Record World : Type := mkWorld {
  w_fs : gmap Path Entry;
  w_doc : Document;
  w_log : list LogLine
}.

Definition log (msg : LogLine) (w : World) : World :=
  mkWorld (w_fs w) (w_doc w) (w_log w ++ [msg]).

(** [p.exists()] *)
Definition path_exists (fs : gmap Path Entry) (p : Path) : bool :=
  bool_decide (is_Some (fs !! p)).

Definition is_file (fs : gmap Path Entry) (p : Path) : bool :=
  match fs !! p with
  | Some (File _) => true
  | _ => false
  end.

(** [p] and its ancestors, the root first. *)
Definition prefixes (p : Path) : list Path :=
  (λ n, take n p) <$> seq 0 (S (length p)).

(** [p.mkdir(parents=True, exist_ok=True)]: an [OSError] when [p] or an
    ancestor is a file. *)
Definition mkdir_parents (p : Path) (fs : gmap Path Entry)
  : result (gmap Path Entry) :=
  if existsb (is_file fs) (prefixes p) then Raise OSError
  else Ok (foldr (λ q fs', <[q := Dir]> fs') fs (prefixes p)).

(** [p.parent] *)
Definition parent (p : Path) : Path := removelast p.

(** The entries strictly below [dir] whose name matches [*.glb]. *)
Definition glb_set (fs : gmap Path Entry) (dir : Path) : gset Path :=
  filter (λ q, dir `prefix_of` q ∧ q ≠ dir ∧ matches_glb q = true) (dom fs).

Definition path_le : relation Path := λ p q, path_leb p q = true.

#[local] Instance path_le_dec : RelDecision path_le :=
  λ p q, decide (path_leb p q = true).

(** [sorted(dir.rglob("*.glb"))] *)
Definition rglob_sorted (fs : gmap Path Entry) (dir : Path) : list Path :=
  merge_sort path_le (elements (glb_set fs dir)).

(** ** process_model *)

(** Lines 100-103. *)
Definition images_to_resize (doc : Document) : gset img_ref :=
  foldl (λ (images : gset img_ref) mat,
           if String.prefix "LV_" (mat_name mat)
           then images ∪ get_images_from_material (Some mat)
           else images)
        ∅ (doc_materials doc).

(** The state of the loop of lines 106-116: the image datablocks, the
    counter, the lines printed by the loop, and the images the loop body
    has been entered for, in order. *)
Record Resizing : Type := mkResizing {
  rs_images : gmap img_ref Image;
  rs_count : nat;
  rs_log : list LogLine;
  rs_attempts : list img_ref
}.

(** One iteration.  A reference without a datablock behind it makes the
    body raise at [img.size]; the handler then finds no [name]. *)
Definition resize_step (max_size : Z) (st : Resizing) (r : img_ref) : Resizing :=
  match rs_images st !! r with
  | None =>
    mkResizing (rs_images st) (rs_count st)
               (rs_log st ++ [LogWarning "UNKNOWN" RuntimeError])
               (rs_attempts st ++ [r])
  | Some img =>
    let '(w, h) := img_size img in
    match resize_image img max_size with
    | Ok (true, img') =>
      mkResizing (<[r := img']> (rs_images st)) (S (rs_count st))
                 (rs_log st ++ [LogResized (img_name img') w h
                                           (img_size img').1 (img_size img').2])
                 (rs_attempts st ++ [r])
    | Ok (false, img') =>
      mkResizing (<[r := img']> (rs_images st)) (rs_count st)
                 (rs_log st ++ [LogKept (img_name img') w h])
                 (rs_attempts st ++ [r])
    | Raise e =>
      mkResizing (rs_images st) (rs_count st)
                 (rs_log st ++ [LogWarning (img_name img) e])
                 (rs_attempts st ++ [r])
    end
  end.

(** The loop, over the working set in the order [order]. *)
Definition resize_images (max_size : Z) (order : list img_ref)
    (images : gmap img_ref Image) : Resizing :=
  foldl (resize_step max_size) (mkResizing images 0 [] []) order.

(** What one iteration does to the image [r] refers to: the datablock
    after it and the line it prints. *)
Definition resize_effect (max_size : Z) (img : Image) : Image * LogLine :=
  match resize_image img max_size with
  | Ok (true, img') =>
    (img', LogResized (img_name img') (img_size img).1 (img_size img).2
                      (img_size img').1 (img_size img').2)
  | Ok (false, img') =>
    (img', LogKept (img_name img') (img_size img).1 (img_size img).2)
  | Raise e => (img, LogWarning (img_name img) e)
  end.

(** The importer reads a file; anything else at the path makes it raise. *)
Definition read_file (fs : gmap Path Entry) (p : Path) : result FileData :=
  match fs !! p with
  | Some (File data) => Ok data
  | _ => Raise RuntimeError
  end.

(** [bpy.ops.import_scene.gltf(filepath=str(p))] *)
Definition import_file (fs : gmap Path Entry) (p : Path) : result Document :=
  data ← read_file fs p;
  import_gltf data.

(** The exporter writes a file; it cannot replace a directory. *)
Definition write_file (fs : gmap Path Entry) (p : Path) (data : FileData)
  : result (gmap Path Entry) :=
  match fs !! p with
  | Some Dir => Raise OSError
  | _ => Ok (<[p := File data]> fs)
  end.

(** A Python set is iterated in an order of its own; [elements] is the
    order taken here.  The document a pass leaves is the same for every
    order ([resize_images_order]). *)
Definition process_model (input_path output_path : Path) (max_size : Z)
    (w : World) : result () * World :=
  let w := log (LogProcessing input_path) w in
  let w := mkWorld (w_fs w) empty_document (w_log w) in
  match import_file (w_fs w) input_path with
  | Raise e => (Raise e, w)
  | Ok doc =>
    let st := resize_images max_size (elements (images_to_resize doc))
                            (doc_images doc) in
    let doc := mkDocument (doc_materials doc) (rs_images st) in
    let w := mkWorld (w_fs w) doc
                     (w_log w ++ rs_log st ++ [LogTexturesResized (rs_count st)]) in
    match mkdir_parents (parent output_path) (w_fs w) with
    | Raise e => (Raise e, w)
    | Ok fs =>
      let w := mkWorld fs (w_doc w) (w_log w) in
      match data ← export_gltf doc; write_file fs output_path data with
      | Raise e => (Raise e, w)
      | Ok fs' => (Ok (), log (LogExported output_path) (mkWorld fs' doc (w_log w)))
      end
    end
  end.

(** ** main *)

Record Config : Type := mkConfig {
  input_dir : Path;
  output_dir : Path;
  max_size : Z
}.

(** Lines 134-154: the defaults and the overrides of the command line.
    [script_dir] is the resolved directory of the script. *)
Definition resolve_config (script_dir : Path) (cli : gmap string string)
  : result Config :=
  let input_dir :=
    match cli !! "--input" with
    | Some s => resolve_path s
    | None => script_dir ++ ["input"]
    end in
  let output_dir :=
    match cli !! "--output" with
    | Some s => resolve_path s
    | None => script_dir ++ ["output"]
    end in
  max_size ←
    match cli !! "--max_size" with
    | None => Ok 512
    | Some v =>
      let invalid := ValueError ("Invalid --max_size value: " +:+ v) in
      match py_int v with
      | Some n => if n <=? 0 then Raise invalid else Ok n
      | None => Raise invalid
      end
    end;
  Ok (mkConfig input_dir output_dir max_size).

Record Counters : Type := mkCounters {
  processed : nat;
  skipped : nat;
  failed : nat
}.

(** [output_dir / glb_file.relative_to(input_dir)] *)
Definition out_file (cfg : Config) (glb_file : Path) : Path :=
  output_dir cfg ++ drop (length (input_dir cfg)) glb_file.

(** The body of the loop of lines 178-197. *)
Definition batch_step (cfg : Config) (acc : Counters * World) (glb_file : Path)
  : Counters * World :=
  let '(c, w) := acc in
  let rel := drop (length (input_dir cfg)) glb_file in
  if path_exists (w_fs w) (out_file cfg glb_file) then
    (mkCounters (processed c) (S (skipped c)) (failed c),
     log LogBlank (log (LogSkipping rel) w))
  else
    match process_model glb_file (out_file cfg glb_file) (max_size cfg) w with
    | (Ok _, w') =>
      (mkCounters (S (processed c)) (skipped c) (failed c), log LogBlank w')
    | (Raise e, w') =>
      (mkCounters (processed c) (skipped c) (S (failed c)),
       log LogBlank (log (LogError rel e) w'))
    end.

Definition batch_loop (cfg : Config) (glb_files : list Path)
    (acc : Counters * World) : Counters * World :=
  foldl (batch_step cfg) acc glb_files.

(** How a run ends: an uncaught exception, the early return of line 163,
    or the summary. *)
Inductive Outcome : Type :=
  | Fatal (e : exn)
  | NoFiles
  | Summary (c : Counters).

(** Lines 153-204. *)
Definition run_batch (cfg : Config) (w : World) : Outcome * World :=
  match mkdir_parents (output_dir cfg) (w_fs w) with
  | Raise e => (Fatal e, w)
  | Ok fs =>
    let w := mkWorld fs (w_doc w) (w_log w) in
    if negb (path_exists fs (input_dir cfg)) then
      (Fatal (FileNotFoundError (input_dir cfg)), w)
    else
      let glb_files := rglob_sorted fs (input_dir cfg) in
      match glb_files with
      | [] => (NoFiles, log (LogNoFiles (input_dir cfg)) w)
      | _ :: _ =>
        let w := log (LogHeader (input_dir cfg) (output_dir cfg) (max_size cfg)
                                (length glb_files)) w in
        let '(c, w) := batch_loop cfg glb_files (mkCounters 0 0 0, w) in
        (Summary c, log (LogSummary (processed c) (skipped c) (failed c)) w)
      end
  end.

Definition main (script_dir : Path) (argv : list string) (w : World)
  : Outcome * World :=
  match parse_cli_args argv with
  | Raise e => (Fatal e, w)
  | Ok cli =>
    match resolve_config script_dir cli with
    | Raise e => (Fatal e, w)
    | Ok cfg => run_batch cfg w
    end
  end.

(** ** Relations between states, for the statements about two runs *)

(** [q] lies below [dir]. *)
Definition strictly_under (dir q : Path) : Prop := dir `prefix_of` q ∧ q ≠ dir.

(** [fs'] is [fs] with more entries, all of them on the branch of
    [out_dir], the new files below it. *)
Definition extends (out_dir : Path) (fs fs' : gmap Path Entry) : Prop :=
  fs ⊆ fs' ∧
  (∀ q, is_Some (fs' !! q) →
        is_Some (fs !! q) ∨ q `prefix_of` out_dir ∨ out_dir `prefix_of` q) ∧
  (∀ q, is_file fs' q = true → is_file fs q = true ∨ strictly_under out_dir q).

(** The file is done with: its output is there, or processing it raises
    in every world with at least these entries. *)
Definition settled (cfg : Config) (fs : gmap Path Entry) (g : Path) : Prop :=
  is_Some (fs !! out_file cfg g) ∨
  ∀ w2 : World, fs ⊆ w_fs w2 →
    ∃ e w3, process_model g (out_file cfg g) (max_size cfg) w2 = (Raise e, w3).

(** The files of the list whose output is there. *)
Definition outputs_present (cfg : Config) (fs : gmap Path Entry)
    (glb_files : list Path) : nat :=
  length (filter (λ g, is_Some (fs !! out_file cfg g)) glb_files).

End Host.

Arguments File {FileData} data.
Arguments Dir {FileData}.
Arguments mkWorld {FileData} w_fs w_doc w_log.
Arguments w_fs {FileData} w.
Arguments w_doc {FileData} w.
Arguments w_log {FileData} w.
Arguments log {FileData}.
Arguments path_exists {FileData}.
Arguments is_file {FileData}.
Arguments mkdir_parents {FileData}.
Arguments glb_set {FileData}.
Arguments rglob_sorted {FileData}.
Arguments read_file {FileData}.
Arguments write_file {FileData}.
Arguments import_file {FileData}.
Arguments extends {FileData}.
Arguments settled {FileData}.
Arguments outputs_present {FileData}.
Arguments process_model {FileData}.
Arguments batch_step {FileData}.
Arguments batch_loop {FileData}.
Arguments run_batch {FileData}.
Arguments main {FileData}.

(** ** A host to run the script on

    Files hold a model or bytes that are no model; the exporter always
    succeeds; [int] reads plain decimal numerals; paths are split at the
    slashes. *)

Inductive GlbFile : Type :=
  | Model (doc : Document)
  | Garbage.

Definition model_import (data : GlbFile) : result Document :=
  match data with
  | Model doc => Ok doc
  | Garbage => Raise RuntimeError
  end.

Definition model_export (doc : Document) : result GlbFile := Ok (Model doc).

Definition digit_of (c : ascii) : option Z :=
  let n := Z.of_nat (nat_of_ascii c) in
  if (48 <=? n) && (n <=? 57) then Some (n - 48) else None.

Fixpoint decimal_digits (s : string) (acc : Z) : option Z :=
  match s with
  | EmptyString => Some acc
  | String c s' =>
    match digit_of c with
    | Some d => decimal_digits s' (10 * acc + d)
    | None => None
    end
  end.

Definition decimal_int (s : string) : option Z :=
  match s with
  | EmptyString => None
  | String "-" EmptyString => None
  | String "-" s' => Z.opp <$> decimal_digits s' 0
  | _ => decimal_digits s 0
  end.

(** The components of [s], [cur] being the component read so far. *)
Fixpoint split_path_aux (s : string) (cur : string) : Path :=
  match s with
  | EmptyString => if String.eqb cur "" then [] else [cur]
  | String "/" s' =>
    if String.eqb cur "" then split_path_aux s' ""
    else cur :: split_path_aux s' ""
  | String c s' => split_path_aux s' (cur +:+ String c EmptyString)
  end.

Definition split_path (s : string) : Path := split_path_aux s "".

Definition run_main : Path → list string → World GlbFile → Outcome * World GlbFile :=
  main model_import model_export decimal_int split_path.

(** ** The specification's reading of the target size *)

(** The size the specification states for a resize: the larger side
    becomes the bound, the smaller the exact quotient, truncated and
    floored to 1. *)
Definition stated_new_size (w h M : Z) : Z * Z :=
  if h <=? w then (M, Z.max 1 (Z.quot (M * h) w))
  else (Z.max 1 (Z.quot (M * w) h), M).

(** ** The rounding model against the Standard Library's binary64

    [reference_scaled_minor] computes [int((M / l) * s)] with the
    operations of [SpecFloat] at precision 53 and maximal exponent 1024. *)

Definition SF_of_int (n : Z) : spec_float := binary_normalize 53 1024 n 0 false.

Definition int_of_SF (x : spec_float) : option Z :=
  match x with
  | S754_zero _ => Some 0
  | S754_finite s m e =>
    let v := if 0 <=? e then Z.pos m * 2 ^ e else Z.quot (Z.pos m) (2 ^ (- e)) in
    Some (if s then - v else v)
  | _ => None
  end.

Definition reference_scaled_minor (M l s : Z) : option Z :=
  int_of_SF (SFmul 53 1024 (SFdiv 53 1024 (SF_of_int M) (SF_of_int l)) (SF_of_int s)).

Definition agrees_with_reference (t : Z * Z * Z) : bool :=
  let '(M, l, s) := t in
  match scaled_minor M l s, reference_scaled_minor M l s with
  | Ok v, Some v' => v =? v'
  | Raise _, None => true
  | _, _ => false
  end.

(** Pseudo-random triples [(M, l, s)] with [M < l] and [s ≤ l]. *)
Fixpoint sample_sizes (n : nat) (seed : Z) : list (Z * Z * Z) :=
  match n with
  | O => []
  | S n' =>
    let M := 1 + (seed * 7919) mod 4096 in
    let l := M + 1 + (seed * 104729) mod 100000 in
    let s := 1 + (seed * 1299709) mod l in
    (M, l, s)
      :: sample_sizes n' (seed * 6364136223846793005 mod 2 ^ 61 + 1442695040888963407)
  end.

(** Sizes at the edges: exact quotients, the host's largest integers,
    subnormal quotients and overflowing conversions. *)
Definition edge_sizes : list (Z * Z * Z) :=
  [(10, 490, 98); (512, 2048, 1024); (2 ^ 60 - 1, 2 ^ 60, 2 ^ 60); (1, 3, 3);
   (1, 49, 49); (512, 2 ^ 31 - 1, 2 ^ 31 - 1); (2 ^ 31 - 2, 2 ^ 31 - 1, 2 ^ 31 - 1);
   (1, 2 ^ 2000, 7); (1, 2 ^ 1000, 2 ^ 1000); (3, 2 ^ 1100, 2 ^ 1030);
   (5, 2 ^ 1074 * 3, 1); (5, 2 ^ 1074 * 3, 2); (1, 2 ^ 1075, 1);
   (1, 2 ^ 1075 + 1, 1); (3, 2 ^ 1075, 1); (1, 2 ^ 1080, 2 ^ 1024);
   (512, 850, 850); (1048944620, 1684525706, 1558496696)].

(** ** Worlds to run the script in *)

Definition tex_body : Image := mkImage "body_albedo" (2048, 1024) true.
Definition tex_prop : Image := mkImage "prop" (256, 256) true.
Definition tex_broken : Image := mkImage "broken" (4096, 4096) false.

(** One image on material [LV_body]. *)
Definition doc_body : Document :=
  mkDocument [mkMaterial "LV_body" true
                (Some [mkNode "TEX_IMAGE" (Some 1%positive); mkNode "BSDF_PRINCIPLED" None])]
             {[ 1%positive := tex_body ]}.

(** One image on material [Other]. *)
Definition doc_other : Document :=
  mkDocument [mkMaterial "Other" true (Some [mkNode "TEX_IMAGE" (Some 1%positive)])]
             {[ 1%positive := tex_prop ]}.

(** Two images on material [LV_mixed], the second without pixel data. *)
Definition doc_mixed : Document :=
  mkDocument [mkMaterial "LV_mixed" true
                (Some [mkNode "TEX_IMAGE" (Some 1%positive);
                       mkNode "TEX_IMAGE" (Some 2%positive)])]
             {[ 1%positive := tex_body; 2%positive := tex_broken ]}.

Definition world_of (entries : list (Path * Entry GlbFile)) : World GlbFile :=
  mkWorld (list_to_map entries) empty_document [].

(** The specification's example: [/d/in/a/model1.glb] and
    [/d/in/b/model2.glb], to be written under [/d/out]. *)
Definition world_two_models : World GlbFile :=
  world_of [([], Dir); (["d"], Dir); (["d"; "in"], Dir);
            (["d"; "in"; "a"], Dir); (["d"; "in"; "b"], Dir);
            (["d"; "in"; "a"; "model1.glb"], File (Model doc_body));
            (["d"; "in"; "b"; "model2.glb"], File (Model doc_other))].

Definition argv_two_models : list string :=
  ["blender"; "-b"; "-P"; "script.py"; "--"; "--input"; "/d/in"; "--output"; "/d/out"].



(** An input file that is no model. *)
Definition world_garbage : World GlbFile :=
  world_of [([], Dir); (["d"], Dir); (["d"; "in"], Dir);
            (["d"; "in"; "bad.glb"], File Garbage)].

(** A model with a failing image. *)
Definition world_mixed : World GlbFile :=
  world_of [([], Dir); (["d"], Dir); (["d"; "in"], Dir);
            (["d"; "in"; "m.glb"], File (Model doc_mixed))].

Definition cfg_two_models : Config := mkConfig ["d"; "in"] ["d"; "out"] 512.

(** ** The lines of the resize loop *)

(** The line the loop prints for the image behind [r]. *)
Definition image_line (max_size : Z) (images : gmap img_ref Image) (r : img_ref)
  : LogLine :=
  match images !! r with
  | Some img => (resize_effect max_size img).2
  | None => LogWarning "UNKNOWN" RuntimeError
  end.

(** The lines that report a resize, the ones [resized_count] counts. *)
Definition is_resized_line (line : LogLine) : bool :=
  match line with
  | LogResized _ _ _ _ _ => true
  | _ => false
  end.

(** ** The files of a file system *)

(** The paths that hold a file. *)
Definition files_of {FileData : Type} (fs : gmap Path (Entry FileData)) : gset Path :=
  filter (λ q, is_file fs q = true) (dom fs).

(** ** The lines of a run *)

(** What the lines say of the file [g]: it was skipped, or its
    processing began and ended in the export or in an error. *)
Definition reported (cfg : Config) (g : Path) (lines : list LogLine) : Prop :=
  let rel := drop (length (input_dir cfg)) g in
  LogSkipping rel ∈ lines ∨
  (LogProcessing g ∈ lines ∧
   (LogExported (out_file cfg g) ∈ lines ∨ ∃ e, LogError rel e ∈ lines)).

(** * Properties *)

(** ** Rounding to the nearest integer *)

Lemma rnd_half_even_err (a b : Z) :
  0 < b → 2 * Z.abs (rnd_half_even a b * b - a) ≤ b.
Proof.
  intros Hb. unfold rnd_half_even.
  pose proof (Z.div_mod a b ltac:(lia)) as Hdm.
  pose proof (Z.mod_pos_bound a b Hb) as Hr.
  destruct (Z.compare_spec (2 * (a mod b)) b) as [He|Hl|Hg].
  - destruct (Z.even (a / b)); nia.
  - nia.
  - nia.
Qed.

Lemma upscale_pos (t : Z) : 0 < upscale t.
Proof. unfold upscale. apply Z.pow_pos_nonneg; lia. Qed.

Lemma downscale_pos (t : Z) : 0 < downscale t.
Proof. unfold downscale. apply Z.pow_pos_nonneg; lia. Qed.

Lemma upscale_nonneg (t : Z) : 0 ≤ t → upscale t = 2 ^ t ∧ downscale t = 1.
Proof.
  intros Ht. unfold upscale, downscale.
  rewrite Z.max_r by lia. rewrite Z.max_l by lia. done.
Qed.

Lemma downscale_neg (t : Z) : t ≤ 0 → upscale t = 1 ∧ downscale t = 2 ^ (- t).
Proof.
  intros Ht. unfold upscale, downscale.
  rewrite Z.max_l by lia. rewrite Z.max_r by lia. done.
Qed.

(** Moving the shift by one doubles the scaled value. *)
Lemma scale_succ (t : Z) :
  (upscale (t + 1) = 2 * upscale t ∧ downscale (t + 1) = downscale t) ∨
  (upscale (t + 1) = upscale t ∧ downscale t = 2 * downscale (t + 1)).
Proof.
  destruct (Z_le_gt_dec 0 t) as [Ht|Ht].
  - left. destruct (upscale_nonneg t Ht) as [-> ->].
    destruct (upscale_nonneg (t + 1) ltac:(lia)) as [-> ->].
    split; [|done]. rewrite Z.pow_add_r by lia. lia.
  - right. destruct (downscale_neg t ltac:(lia)) as [-> ->].
    destruct (downscale_neg (t + 1) ltac:(lia)) as [-> ->].
    split; [done|]. replace (- t) with (- (t + 1) + 1) by lia.
    rewrite Z.pow_add_r by lia. lia.
Qed.

(** Before the adjustment the scaled value lies in (2^51, 2^53). *)
Lemma first_shift_bounds (a b : Z) :
  0 < a → 0 < b →
  let t := 52 - (Z.log2 a - Z.log2 b) in
  2 ^ 51 * (b * downscale t) < a * upscale t < 2 ^ 53 * (b * downscale t).
Proof.
  intros Ha Hb t.
  pose proof (Z.log2_spec a Ha) as [Ha1 Ha2].
  pose proof (Z.log2_spec b Hb) as [Hb1 Hb2].
  pose proof (Z.log2_nonneg a) as Hla. pose proof (Z.log2_nonneg b) as Hlb.
  rewrite <- Z.add_1_r in Ha2, Hb2.
  rewrite Z.pow_add_r in Ha2, Hb2 by lia.
  set (A := 2 ^ Z.log2 a) in *. set (B := 2 ^ Z.log2 b) in *.
  assert (0 < A) by (apply Z.pow_pos_nonneg; lia).
  assert (0 < B) by (apply Z.pow_pos_nonneg; lia).
  destruct (Z_le_gt_dec 0 t) as [Ht|Ht].
  - destruct (upscale_nonneg t Ht) as [-> ->].
    assert (HT : A * 2 ^ t = 2 ^ 52 * B).
    { unfold A, B. rewrite <- !Z.pow_add_r by lia. f_equal. lia. }
    set (T := 2 ^ t) in *. assert (0 < T) by (apply Z.pow_pos_nonneg; lia).
    change (2 ^ 1) with 2 in *. nia.
  - destruct (downscale_neg t ltac:(lia)) as [-> ->].
    assert (HT : A = 2 ^ 52 * B * 2 ^ (- t)).
    { unfold A, B. rewrite <- !Z.pow_add_r by lia. f_equal. lia. }
    set (T := 2 ^ (- t)) in *. assert (0 < T) by (apply Z.pow_pos_nonneg; lia).
    change (2 ^ 1) with 2 in *. nia.
Qed.

(** A quotient of at least 2^-1020 is rounded at full precision: the
    scaled value lies in [[2^52, 2^53)]. *)
Lemma fl_shift_normal (a b : Z) :
  0 < a → 0 < b → b ≤ 2 ^ 1020 * a →
  let t := fl_shift a b in
  2 ^ 52 * (b * downscale t) ≤ a * upscale t < 2 ^ 53 * (b * downscale t).
Proof.
  intros Ha Hb Hlow. unfold fl_shift, prec, emin.
  change (53 - 1) with 52.
  pose proof (first_shift_bounds a b Ha Hb) as H0. cbv zeta in H0.
  set (t0 := 52 - (Z.log2 a - Z.log2 b)) in *.
  assert (Hcap : t0 + 1 ≤ 1074).
  { assert (Z.log2 b ≤ 1020 + Z.log2 a); [|lia].
    etrans; [apply Z.log2_le_mono, Hlow|].
    rewrite Z.mul_comm, Z.log2_mul_pow2 by lia. lia. }
  pose proof (upscale_pos t0). pose proof (downscale_pos t0).
  pose proof (upscale_pos (t0 + 1)). pose proof (downscale_pos (t0 + 1)).
  destruct (Z.ltb_spec (a * upscale t0) (2 ^ 52 * (b * downscale t0))) as [Hlt|Hge].
  - rewrite Z.min_l by lia. cbv zeta.
    destruct (scale_succ t0) as [[-> ->]|[-> Hd]].
    + lia.
    + rewrite Hd in *. lia.
  - rewrite Z.min_l by lia. cbv zeta. lia.
Qed.

(** ** The rounding is to nearest, ties to even *)

(** [rnd_half_even a b] is an integer nearest to [a / b]. *)
Lemma rnd_half_even_nearest (a b j : Z) :
  0 < b → Z.abs (rnd_half_even a b * b - a) ≤ Z.abs (j * b - a).
Proof.
  intros Hb. pose proof (rnd_half_even_err a b Hb) as Herr.
  destruct (Z.eq_dec j (rnd_half_even a b)) as [->|Hne]; [lia|].
  assert (b ≤ Z.abs ((j - rnd_half_even a b) * b)).
  { rewrite Z.abs_mul, (Z.abs_eq b) by lia.
    assert (1 ≤ Z.abs (j - rnd_half_even a b)) by lia. nia. }
  lia.
Qed.

(** On a tie the even neighbour is taken. *)
Lemma rnd_half_even_tie (a b : Z) :
  0 < b → 2 * Z.abs (rnd_half_even a b * b - a) = b →
  Z.even (rnd_half_even a b) = true.
Proof.
  intros Hb. unfold rnd_half_even.
  pose proof (Z.div_mod a b ltac:(lia)) as Hdm.
  pose proof (Z.mod_pos_bound a b Hb) as Hr.
  destruct (Z.compare_spec (2 * (a mod b)) b) as [He|Hl|Hg].
  - destruct (Z.even (a / b)) eqn:Hev; [done|]. intros _.
    rewrite Z.even_add, Hev. done.
  - intros Htie. exfalso. nia.
  - intros Htie. exfalso. nia.
Qed.

(** Two shifts apart: the scales differ by the power of two between
    them. *)
Lemma scale_diff (t1 t2 : Z) :
  t1 ≤ t2 →
  upscale t2 * downscale t1 = 2 ^ (t2 - t1) * (upscale t1 * downscale t2).
Proof.
  intros Hle. unfold upscale, downscale.
  rewrite <- !Z.pow_add_r by lia. f_equal. lia.
Qed.

(** The shift of a rounding: at most 1074; with it the scaled quotient
    is below 2^53, and at least 2^52 unless the shift is 1074. *)
Lemma fl_shift_spec (a b : Z) :
  0 < a → 0 < b →
  let t := fl_shift a b in
  t ≤ 1074 ∧
  a * upscale t < 2 ^ 53 * (b * downscale t) ∧
  (2 ^ 52 * (b * downscale t) ≤ a * upscale t ∨ t = 1074).
Proof.
  intros Ha Hb. unfold fl_shift, prec, emin. change (53 - 1) with 52.
  pose proof (first_shift_bounds a b Ha Hb) as H0. cbv zeta in H0.
  set (t0 := 52 - (Z.log2 a - Z.log2 b)) in *.
  pose proof (upscale_pos t0). pose proof (downscale_pos t0).
  pose proof (upscale_pos (t0 + 1)). pose proof (downscale_pos (t0 + 1)).
  set (t1 := if a * upscale t0 <? 2 ^ 52 * (b * downscale t0) then t0 + 1 else t0).
  assert (Hn : 2 ^ 52 * (b * downscale t1) ≤ a * upscale t1
               < 2 ^ 53 * (b * downscale t1)).
  { subst t1.
    destruct (Z.ltb_spec (a * upscale t0) (2 ^ 52 * (b * downscale t0))) as [Hlt|Hge].
    - destruct (scale_succ t0) as [[-> ->]|[-> Hd]]; [lia|]. rewrite Hd in *. lia.
    - lia. }
  change (- -1074) with 1074. cbv zeta.
  destruct (Z.le_gt_cases t1 1074) as [Hle|Hgt].
  - rewrite Z.min_l by lia. split; [done|]. split; [lia|]. left. lia.
  - rewrite Z.min_r by lia. split; [lia|].
    pose proof (scale_diff 1074 t1 ltac:(lia)) as Hsc.
    pose proof (upscale_pos 1074). pose proof (downscale_pos 1074).
    pose proof (upscale_pos t1). pose proof (downscale_pos t1).
    assert (2 ^ 1 ≤ 2 ^ (t1 - 1074)) by (apply Z.pow_le_mono_r; lia).
    change (2 ^ 1) with 2 in *.
    set (G := 2 ^ (t1 - 1074)) in *.
    assert (Hkey : (a * upscale 1074) * (G * downscale t1)
                   < (2 ^ 53 * (b * downscale 1074)) * downscale t1).
    { replace (a * upscale 1074 * (G * downscale t1))
        with (a * (G * (upscale 1074 * downscale t1))) by ring.
      rewrite <- Hsc.
      replace (a * (upscale t1 * downscale 1074))
        with (a * upscale t1 * downscale 1074) by ring.
      replace (2 ^ 53 * (b * downscale 1074) * downscale t1)
        with (2 ^ 53 * (b * downscale t1) * downscale 1074) by ring.
      apply Z.mul_lt_mono_pos_r; lia. }
    split; [|by right].
    assert (a * upscale 1074 * 2 < 2 ^ 53 * (b * downscale 1074)); [|lia].
    apply (Z.mul_lt_mono_pos_r (downscale t1)); [lia|].
    eapply Z.le_lt_trans; [|exact Hkey].
    rewrite <- !Z.mul_assoc. apply Z.mul_le_mono_nonneg_l; [lia|].
    apply Z.mul_le_mono_nonneg_l; [lia|]. nia.
Qed.

Lemma scale_opp (e : Z) : upscale (- e) = downscale e ∧ downscale (- e) = upscale e.
Proof. unfold upscale, downscale. by rewrite Z.opp_involutive. Qed.

(** A rounded positive quotient is a double [m * 2^(-t)], [m ≤ 2^53],
    [t ≤ 1074]; no double [k * 2^e] is nearer to [a / b]; and on a tie
    [m] is even. *)
Lemma fl_pos_nearest (a b : Z) (f : float) :
  0 < a → 0 < b → fl_pos a b = Some f →
  ∃ m t,
    t ≤ 1074 ∧ 0 ≤ m ≤ 2 ^ 53 ∧
    fnum f = m * downscale t ∧ fden f = upscale t ∧
    (∀ k e, 0 ≤ k ≤ 2 ^ 53 → -1074 ≤ e →
       Z.abs (fnum f * b - a * fden f) * downscale e
       ≤ Z.abs (k * upscale e * b - a * downscale e) * fden f) ∧
    (2 * Z.abs (m * (b * downscale t) - a * upscale t) = b * downscale t →
     Z.even m = true).
Proof.
  intros Ha Hb. unfold fl_pos.
  pose proof (fl_shift_spec a b Ha Hb) as Hs. cbv zeta in Hs.
  set (t := fl_shift a b) in *. destruct Hs as (Ht & Hupp & Hlow).
  pose proof (upscale_pos t) as HU. pose proof (downscale_pos t) as HD.
  set (U := upscale t) in *. set (D := downscale t) in *.
  assert (HbD : 0 < b * D) by nia.
  pose proof (rnd_half_even_err (a * U) (b * D) HbD) as Herr.
  pose proof (rnd_half_even_nearest (a * U) (b * D)) as Hnear.
  pose proof (rnd_half_even_tie (a * U) (b * D) HbD) as Htie.
  set (m := rnd_half_even (a * U) (b * D)) in *.
  destruct (2 ^ emax * U <=? m * D); [done|]. intros [= <-]. cbn [fnum fden].
  assert (H53 : 2 ^ 53 = 9007199254740992) by reflexivity.
  assert (H52 : 2 ^ 52 = 4503599627370496) by reflexivity.
  rewrite H53, H52 in *.
  assert (Hm : 0 ≤ m ≤ 9007199254740992) by nia.
  exists m, t. do 4 (split; [done|]). split; [|done].
  intros k e Hk He.
  pose proof (upscale_pos e) as HP. pose proof (downscale_pos e) as HQ.
  destruct (scale_opp e) as [Ho1 Ho2].
  destruct (Z.le_gt_cases (- e) t) as [Hcoarse|Hfine].
  - (* the candidate lies on the grid of the result *)
    pose proof (scale_diff (- e) t Hcoarse) as Hsc. rewrite Ho1, Ho2 in Hsc.
    fold U D in Hsc.
    assert (HG : 0 < 2 ^ (t - - e)) by (apply Z.pow_pos_nonneg; lia).
    set (G := 2 ^ (t - - e)) in *. set (P := upscale e) in *.
    set (Q := downscale e) in *.
    specialize (Hnear (k * G) HbD).
    rewrite <- (Z.abs_eq Q) at 1 by lia. rewrite <- (Z.abs_eq U) at 2 by lia.
    rewrite <- !Z.abs_mul.
    replace ((k * P * b - a * Q) * U) with ((k * G * (b * D) - a * U) * Q).
    + rewrite !Z.abs_mul. apply Z.mul_le_mono_nonneg_r; [lia|].
      replace (m * D * b - a * U) with (m * (b * D) - a * U) by ring. done.
    + transitivity (k * b * (G * (Q * D)) - a * U * Q); [ring|].
      rewrite <- Hsc. ring.
  - (* the candidate is finer: it lies below 2^52 units of the result *)
    destruct Hlow as [Hlow|Heq]; [|lia].
    pose proof (scale_diff t (- e) ltac:(lia)) as Hsc. rewrite Ho1, Ho2 in Hsc.
    fold U D in Hsc.
    assert (HG : 2 ^ 1 ≤ 2 ^ (- e - t)) by (apply Z.pow_le_mono_r; lia).
    change (2 ^ 1) with 2 in HG.
    set (G := 2 ^ (- e - t)) in *. set (P := upscale e) in *.
    set (Q := downscale e) in *.
    specialize (Hnear 4503599627370496 HbD).
    assert (HPU : 0 < P * U) by nia.
    assert (HkPU : k * (P * U) ≤ 4503599627370496 * (Q * D)).
    { rewrite Hsc. rewrite (Z.mul_comm U P).
      transitivity (9007199254740992 * (P * U)); [nia|nia]. }
    assert (Hbelow : (k * P * b) * U ≤ (a * Q) * U).
    { transitivity (4503599627370496 * (b * D) * Q); [|nia].
      replace (k * P * b * U) with (b * (k * (P * U))) by ring.
      replace (4503599627370496 * (b * D) * Q)
        with (b * (4503599627370496 * (Q * D))) by ring.
      apply Z.mul_le_mono_nonneg_l; [lia|done]. }
    assert (Hle : k * P * b ≤ a * Q).
    { by apply (Z.mul_le_mono_pos_r _ _ U HU). }
    rewrite (Z.abs_neq (k * P * b - a * Q)) by lia.
    replace (m * D * b - a * U) with (m * (b * D) - a * U) by ring.
    transitivity (Z.abs (4503599627370496 * (b * D) - a * U) * Q).
    { apply Z.mul_le_mono_nonneg_r; [lia|done]. }
    rewrite Z.abs_neq by lia.
    assert (b * (k * (P * U)) ≤ b * (4503599627370496 * (Q * D))).
    { apply Z.mul_le_mono_nonneg_l; [lia|done]. }
    nia.
Qed.

(** Rounding a positive quotient in [[2^-1020, 2^52)]: no overflow, the
    denominator [U] is the power of two that scales the quotient into
    [[2^52, 2^53)], and the numerator is within half a unit of the scaled
    quotient. *)
Lemma fl_pos_spec (a b : Z) :
  0 < a → 0 < b → a < 2 ^ 52 * b → b ≤ 2 ^ 1020 * a →
  ∃ m U, fl_pos a b = Some (Float m U) ∧ 0 < U ∧
         2 * Z.abs (m * b - a * U) ≤ b ∧
         2 ^ 52 * b ≤ a * U < 2 ^ 53 * b.
Proof.
  intros Ha Hb Hhi Hlo.
  pose proof (fl_shift_normal a b Ha Hb Hlo) as Hn. cbv zeta in Hn.
  unfold fl_pos. set (t := fl_shift a b) in *.
  assert (Ht : 0 ≤ t).
  { destruct (Z_le_gt_dec 0 t) as [|Hneg]; [done|exfalso].
    destruct (downscale_neg t ltac:(lia)) as [Hu Hd]. rewrite Hu, Hd in Hn.
    assert (2 ^ 1 ≤ 2 ^ (- t)) by (apply Z.pow_le_mono_r; lia).
    change (2 ^ 1) with 2 in *. nia. }
  destruct (upscale_nonneg t Ht) as [Hu Hd]. rewrite Hd in *.
  pose proof (upscale_pos t) as HU. set (U := upscale t) in *.
  rewrite !Z.mul_1_r in *.
  pose proof (rnd_half_even_err (a * U) b Hb) as Herr.
  set (m := rnd_half_even (a * U) b) in *.
  assert (Hm : m ≤ 2 ^ 53) by nia.
  destruct (Z.leb_spec (2 ^ emax * U) m) as [Hov|_].
  { exfalso. unfold emax in Hov.
    assert (2 ^ 53 < 2 ^ 1024) by (apply Z.pow_lt_mono_r; lia). nia. }
  exists m, U. repeat split; try done; lia.
Qed.

(** [float(n)] is exact below 2^52. *)
Lemma float_of_int_exact (n : Z) :
  0 < n < 2 ^ 52 →
  ∃ U, float_of_int n = Ok (Float (n * U) U) ∧ 0 < U.
Proof.
  intros Hn. unfold float_of_int, round_nearest.
  replace (n ?= 0) with Gt by (symmetry; apply Z.compare_gt_iff; lia).
  destruct (fl_pos_spec n 1) as (m & U & -> & HU & Herr & _); [lia..| |].
  { assert (0 < 2 ^ 1020) by (apply Z.pow_pos_nonneg; lia). nia. }
  exists U. split; [|done]. cbn. do 2 f_equal. lia.
Qed.

(** The quotient of two positive host integers, numerator below
    denominator. *)
Lemma true_div_spec (M l : Z) :
  0 < M → M < l → l ≤ INT_MAX →
  ∃ m U, true_div M l = Ok (Float m U) ∧ 0 < U ∧
         2 * Z.abs (m * l - M * U) ≤ l ∧
         2 ^ 52 * l ≤ M * U < 2 ^ 53 * l.
Proof.
  intros HM Hl Hmax. unfold true_div, round_nearest, INT_MAX in *.
  destruct (Z.eqb_spec l 0) as [|_]; [lia|].
  rewrite Z.sgn_pos, Z.mul_1_r, Z.abs_eq by lia.
  replace (M ?= 0) with Gt by (symmetry; apply Z.compare_gt_iff; lia).
  destruct (fl_pos_spec M l) as (m & U & -> & HU & Herr & Hn); [lia..| |].
  { assert (2 ^ 31 ≤ 2 ^ 1020) by (apply Z.pow_le_mono_r; lia). nia. }
  exists m, U. done.
Qed.

(** The product [(M / l) * s] as the script computes it, for positive host
    integers with [M < l] and [s ≤ l]: it is defined, and its numerator
    [m] and denominator [U] satisfy, with K = 2^53,
    [(K - 1)^2 * M * s * U ≤ K^2 * m * l ≤ (K + 1)^2 * M * s * U]:
    two roundings, each of relative error at most 1 / K. *)
Lemma ratio_product_spec (M l s : Z) :
  0 < M → M < l → 0 < s → s ≤ l → l ≤ INT_MAX →
  ∃ m U, (ratio ← true_div M l; float_mul_int ratio s) = Ok (Float m U) ∧
         0 < U ∧ 0 ≤ m ∧
         (2 ^ 53 - 1) * (2 ^ 53 - 1) * (M * s) * U ≤ 2 ^ 53 * 2 ^ 53 * m * l ∧
         2 ^ 53 * 2 ^ 53 * m * l ≤ (2 ^ 53 + 1) * (2 ^ 53 + 1) * (M * s) * U.
Proof.
  intros HM Hl Hs Hsl Hmax.
  destruct (true_div_spec M l HM Hl Hmax) as (m1 & U1 & -> & HU1 & E1 & N1).
  unfold INT_MAX in Hmax. cbn [mbind result_bind]. unfold float_mul_int.
  destruct (float_of_int_exact s) as (U2 & -> & HU2).
  { assert (2 ^ 31 < 2 ^ 52) by (apply Z.pow_lt_mono_r; lia). lia. }
  cbn [mbind result_bind]. unfold float_mul, round_nearest. cbn [fnum fden].
  set (K := 2 ^ 53) in *.
  assert (HK : K = 9007199254740992) by reflexivity.
  assert (H52 : 2 ^ 52 = 4503599627370496) by reflexivity.
  assert (H31 : 2 ^ 31 = 2147483648) by reflexivity.
  rewrite H52 in *. rewrite H31 in *.
  assert (Hm1 : 0 < m1) by nia.
  assert (Hm1l : m1 * l ≤ M * U1 + l) by lia.
  assert (Hm1s : m1 * s ≤ m1 * l) by nia.
  assert (HMU : M * U1 < 2147483648 * U1) by nia.
  assert (Ha : 0 < m1 * (s * U2)) by nia.
  replace (m1 * (s * U2) ?= 0) with Gt by (symmetry; apply Z.compare_gt_iff; lia).
  destruct (fl_pos_spec (m1 * (s * U2)) (U1 * U2)) as (m3 & U3 & -> & HU3 & E3 & N3).
  - done.
  - nia.
  - rewrite H52. assert (m1 * s < 4503599627370496 * U1) by nia. nia.
  - assert (2 ^ 84 ≤ 2 ^ 1020) by (apply Z.pow_le_mono_r; lia).
    assert (H84 : 2 ^ 84 = 19342813113834066795298816) by reflexivity.
    assert (U1 < 2 ^ 84) by nia.
    assert (1 ≤ m1 * s) by nia.
    assert (U1 * U2 ≤ 2 ^ 1020 * U2) by nia.
    assert (2 ^ 1020 * U2 ≤ 2 ^ 1020 * ((m1 * s) * U2)).
    { apply Z.mul_le_mono_nonneg_l; [lia|nia]. }
    replace (m1 * (s * U2)) with (m1 * s * U2) by ring. lia.
  - rewrite H52 in *. exists m3, U3. cbn [overflow_check].
    split; [done|]. split; [done|].
    (* one rounding each *)
    assert (R1a : K * (m1 * l) ≤ (K + 1) * (M * U1)) by lia.
    assert (R1b : (K - 1) * (M * U1) ≤ K * (m1 * l)) by lia.
    assert (R3a : K * (m3 * (U1 * U2)) ≤ (K + 1) * (m1 * (s * U2) * U3)) by lia.
    assert (R3b : (K - 1) * (m1 * (s * U2) * U3) ≤ K * (m3 * (U1 * U2))) by lia.
    assert (C3a : K * (m3 * U1) ≤ (K + 1) * (m1 * s * U3)).
    { apply (Z.mul_le_mono_pos_r _ _ U2 HU2). 
      etrans; [|etrans; [apply R3a|]]; apply Z.eq_le_incl; ring. }
    assert (C3b : (K - 1) * (m1 * s * U3) ≤ K * (m3 * U1)).
    { apply (Z.mul_le_mono_pos_r _ _ U2 HU2). 
      etrans; [|etrans; [apply R3b|]]; apply Z.eq_le_incl; ring. }
    assert (Hm3 : 0 ≤ m3) by nia.
    split; [done|]. split.
    + (* lower *)
      apply (Z.mul_le_mono_pos_r _ _ U1 HU1).
      transitivity ((K - 1) * (s * U3) * ((K - 1) * (M * U1))).
      { apply Z.eq_le_incl; ring. }
      transitivity ((K - 1) * (s * U3) * (K * (m1 * l))).
      { apply Z.mul_le_mono_nonneg_l; [nia|done]. }
      transitivity (K * l * ((K - 1) * (m1 * s * U3))).
      { apply Z.eq_le_incl; ring. }
      transitivity (K * l * (K * (m3 * U1))).
      { apply Z.mul_le_mono_nonneg_l; [nia|done]. }
      apply Z.eq_le_incl; ring.
    + apply (Z.mul_le_mono_pos_r _ _ U1 HU1).
      transitivity (K * l * (K * (m3 * U1))).
      { apply Z.eq_le_incl; ring. }
      transitivity (K * l * ((K + 1) * (m1 * s * U3))).
      { apply Z.mul_le_mono_nonneg_l; [nia|done]. }
      transitivity ((K + 1) * (s * U3) * (K * (m1 * l))).
      { apply Z.eq_le_incl; ring. }
      transitivity ((K + 1) * (s * U3) * ((K + 1) * (M * U1))).
      { apply Z.mul_le_mono_nonneg_l; [nia|done]. }
      apply Z.eq_le_incl; ring.
Qed.

(** [int((M / l) * s)] for positive host integers with [M < l] and
    [s ≤ l]: defined, at most [M], and within one of the exact quotient
    [M * s / l]. *)
Lemma scaled_minor_spec (M l s : Z) :
  0 < M → M < l → 0 < s → s ≤ l → l ≤ INT_MAX →
  ∃ v, scaled_minor M l s = Ok v ∧ 0 ≤ v ≤ M ∧
       M * s / l - 1 ≤ v ≤ M * s / l + 1.
Proof.
  intros HM Hl Hs Hsl Hmax. unfold scaled_minor.
  destruct (true_div M l) as [ratio|e] eqn:Hdiv.
  2:{ destruct (true_div_spec M l HM Hl Hmax) as (? & ? & ? & _). congruence. }
  destruct (ratio_product_spec M l s HM Hl Hs Hsl Hmax)
    as (m & U & Hprod & HU & Hm & Hlow & Hupp).
  rewrite Hdiv in Hprod. cbn [mbind result_bind] in Hprod |- *.
  rewrite Hprod. cbn [mbind result_bind]. eexists; split; [done|].
  unfold int_of_float. cbn [fnum fden]. rewrite Z.quot_div_nonneg by lia.
  unfold INT_MAX in Hmax.
  set (c := M * s / l).
  assert (Hc : c * l ≤ M * s < (c + 1) * l).
  { pose proof (Z.div_mod (M * s) l ltac:(lia)).
    pose proof (Z.mod_pos_bound (M * s) l ltac:(lia)). subst c. nia. }
  assert (Hc0 : 0 ≤ c) by (apply Z.div_pos; nia).
  assert (HcM : c ≤ M).
  { apply Z.lt_succ_r. apply Z.div_lt_upper_bound; nia. }
  set (K := 2 ^ 53) in *.
  assert (HK : K = 9007199254740992) by reflexivity.
  assert (H31 : 2 ^ 31 = 2147483648) by reflexivity. rewrite H31 in Hmax.
  assert (Hcanc : ∀ x y, x * l ≤ y * l → x ≤ y).
  { intros x y. apply Z.mul_le_mono_pos_r. lia. }
  assert (HvM : m < (M + 1) * U).
  { assert (K * K * m ≤ (K + 1) * (K + 1) * M * U).
    { apply Hcanc. etrans; [apply Hupp|].
      transitivity ((K + 1) * (K + 1) * M * U * s); [apply Z.eq_le_incl; ring|].
      apply Z.mul_le_mono_nonneg_l; [nia|done]. }
    assert ((K + 1) * (K + 1) * M * U < K * K * ((M + 1) * U)); [nia|nia]. }
  assert (Hvc : m < (c + 2) * U).
  { assert (K * K * m < (K + 1) * (K + 1) * (c + 1) * U).
    { apply (Z.mul_lt_mono_pos_r l); [lia|].
      eapply Z.le_lt_trans; [apply Hupp|].
      replace ((K + 1) * (K + 1) * (c + 1) * U * l)
        with ((K + 1) * (K + 1) * U * ((c + 1) * l)) by ring.
      replace ((K + 1) * (K + 1) * (M * s) * U)
        with ((K + 1) * (K + 1) * U * (M * s)) by ring.
      apply Z.mul_lt_mono_pos_l; [nia|lia]. }
    assert ((K + 1) * (K + 1) * (c + 1) * U ≤ K * K * ((c + 2) * U)); [nia|nia]. }
  assert (Hcv : (c - 1) * U ≤ m).
  { assert ((K - 1) * (K - 1) * c * U ≤ K * K * m).
    { apply Hcanc. etrans; [|apply Hlow].
      replace ((K - 1) * (K - 1) * c * U * l)
        with ((K - 1) * (K - 1) * U * (c * l)) by ring.
      replace ((K - 1) * (K - 1) * (M * s) * U)
        with ((K - 1) * (K - 1) * U * (M * s)) by ring.
      apply Z.mul_le_mono_nonneg_l; [nia|lia]. }
    assert (K * K * ((c - 1) * U) ≤ (K - 1) * (K - 1) * c * U); [nia|nia]. }
  repeat split.
  - apply Z.div_pos; lia.
  - apply Z.lt_succ_r. apply Z.div_lt_upper_bound; lia.
  - apply Z.div_le_lower_bound; lia.
  - apply Z.lt_succ_r. apply Z.div_lt_upper_bound; lia.
Qed.

(** ** resize_image *)

(** The target size for a host image with a side above the bound. *)
Lemma new_size_spec (w h M : Z) :
  0 < w ≤ INT_MAX → 0 < h ≤ INT_MAX → 0 < M → M < Z.max w h →
  ∃ nw nh, new_size w h M = Ok (nw, nh) ∧
           1 ≤ nw ≤ M ∧ 1 ≤ nh ≤ M ∧
           (h ≤ w → nw = M ∧ Z.abs (nh - (stated_new_size w h M).2) ≤ 1) ∧
           (w < h → nh = M ∧ Z.abs (nw - (stated_new_size w h M).1) ≤ 1).
Proof.
  intros Hw Hh HM Hmax. unfold new_size, stated_new_size.
  destruct (Z.leb_spec h w) as [Hhw|Hwh].
  - destruct (scaled_minor_spec M w h) as (v & -> & Hv & Hc); [lia..|].
    cbn [mbind result_bind]. exists M, (Z.max 1 v).
    rewrite Z.quot_div_nonneg by nia. cbn [fst snd].
    repeat split; lia.
  - destruct (scaled_minor_spec M h w) as (v & -> & Hv & Hc); [lia..|].
    cbn [mbind result_bind]. exists (Z.max 1 v), M.
    rewrite Z.quot_div_nonneg by nia. cbn [fst snd].
    repeat split; lia.
Qed.

(** A call that does not return "not resized" with the image as it was
    went past both guards. *)
Lemma resize_image_true_inv (img img' : Image) (M : Z) :
  resize_image img M = Ok (true, img') →
  ∃ nw nh, 0 < (img_size img).1 ∧ 0 < (img_size img).2 ∧
           (M < (img_size img).1 ∨ M < (img_size img).2) ∧
           new_size (img_size img).1 (img_size img).2 M = Ok (nw, nh) ∧
           img_has_data img = true ∧
           img' = mkImage (img_name img) (nw, nh) true.
Proof.
  unfold resize_image. destruct (img_size img) as [w h]. cbn [fst snd].
  destruct (Z.leb_spec w 0); [done|]. destruct (Z.leb_spec h 0); [done|].
  cbn [orb].
  destruct (Z.leb_spec w M), (Z.leb_spec h M); cbn [andb]; try done.
  all: destruct (new_size w h M) as [[nw nh]|e]; cbn [mbind result_bind]; [|done].
  all: unfold scale; destruct (img_has_data img) eqn:Hd;
    cbn [mbind result_bind]; [|done].
  all: intros [= <-]; exists nw, nh; repeat split; (done || lia).
Qed.

Lemma resize_image_acts (img : Image) (w h M : Z) :
  img_size img = (w, h) → 0 < w → 0 < h → M < w ∨ M < h →
  resize_image img M =
    '(nw, nh) ← new_size w h M; img' ← scale img nw nh; Ok (true, img').
Proof.
  intros Hsz Hw Hh HM. unfold resize_image. rewrite Hsz.
  destruct (Z.leb_spec w 0); [lia|]. destruct (Z.leb_spec h 0); [lia|].
  cbn [orb].
  destruct (Z.leb_spec w M), (Z.leb_spec h M); cbn [andb]; (done || lia).
Qed.

(** C1.  For an image of positive width [w] and height [h] and a positive
    bound [M], [resize_image] returns "not resized" and leaves the image
    as it is exactly when [w ≤ M] and [h ≤ M]; it returns "resized" only
    when a side exceeds [M], and for a host image with pixel data it does
    so whenever a side exceeds [M]. *)
Theorem resize_image_noop_iff (img : Image) (w h M : Z) :
  img_size img = (w, h) → 0 < w → 0 < h → 0 < M →
  (resize_image img M = Ok (false, img) ↔ w ≤ M ∧ h ≤ M) ∧
  (∀ img', resize_image img M = Ok (false, img') → img' = img) ∧
  (∀ img', resize_image img M = Ok (true, img') → M < w ∨ M < h) ∧
  (M < w ∨ M < h → w ≤ INT_MAX → h ≤ INT_MAX → img_has_data img = true →
   ∃ img', resize_image img M = Ok (true, img')).
Proof.
  intros Hsz Hw Hh HM.
  assert (Hacts : M < w ∨ M < h → ∀ img', resize_image img M ≠ Ok (false, img')).
  { intros Hex img'. rewrite (resize_image_acts img w h M) by done.
    destruct (new_size w h M) as [[nw nh]|e]; cbn [mbind result_bind]; [|done].
    destruct (scale img nw nh); cbn [mbind result_bind]; done. }
  assert (Hnoop : w ≤ M ∧ h ≤ M → resize_image img M = Ok (false, img)).
  { intros [H1 H2]. unfold resize_image. rewrite Hsz.
    destruct (Z.leb_spec w 0); [lia|]. destruct (Z.leb_spec h 0); [lia|].
    cbn [orb].
    destruct (Z.leb_spec w M), (Z.leb_spec h M); cbn [andb]; (done || lia). }
  split; [split|split; [|split]].
  - intros Hr. destruct (Z_le_gt_dec w M); [|exfalso; eapply Hacts; [|done]; lia].
    destruct (Z_le_gt_dec h M); [done|exfalso; eapply Hacts; [|done]; lia].
  - done.
  - intros img' Hr.
    destruct (Z_le_gt_dec w M); [|exfalso; eapply Hacts; [|done]; lia].
    destruct (Z_le_gt_dec h M); [|exfalso; eapply Hacts; [|done]; lia].
    rewrite Hnoop in Hr by done. congruence.
  - intros img' Hr. apply resize_image_true_inv in Hr as (? & ? & _ & _ & Hex & _).
    rewrite Hsz in Hex. done.
  - intros Hex Hwm Hhm Hd. rewrite (resize_image_acts img w h M) by done.
    destruct (new_size_spec w h M) as (nw & nh & -> & _); [lia..|].
    cbn [mbind result_bind]. unfold scale. rewrite Hd. cbn. eauto.
Qed.

Lemma resize_image_noop_iff_witness :
  let img := mkImage "tex" (2048, 1024) true in
  (resize_image img 512 = Ok (false, img) ↔ 2048 ≤ 512 ∧ 1024 ≤ 512) ∧
  (∀ img', resize_image img 512 = Ok (false, img') → img' = img) ∧
  (∀ img', resize_image img 512 = Ok (true, img') → 512 < 2048 ∨ 512 < 1024) ∧
  (512 < 2048 ∨ 512 < 1024 → 2048 ≤ INT_MAX → 1024 ≤ INT_MAX →
   img_has_data img = true → ∃ img', resize_image img 512 = Ok (true, img')).
Proof.
  intros img.
  apply (resize_image_noop_iff img 2048 1024 512); [reflexivity|lia|lia|lia].
Defined.







(** ** get_images_from_material *)

(** The node loop adds exactly the images bound to image-texture nodes. *)
Lemma node_loop_elem (nodes : list Node) (acc : gset img_ref) (i : img_ref) :
  i ∈ foldl (λ (images : gset img_ref) node,
               if String.eqb (node_type node) "TEX_IMAGE"
               then match node_image node with
                    | Some image => images ∪ {[ image ]}
                    | None => images
                    end
               else images) acc nodes
  ↔ i ∈ acc ∨ ∃ node, node ∈ nodes ∧ node_type node = "TEX_IMAGE"
                      ∧ node_image node = Some i.
Proof.
  revert acc. induction nodes as [|node nodes IH]; intros acc; cbn [foldl].
  - split; [auto|]. intros [?|(node & Hin & _)]; [done|]. by apply elem_of_nil in Hin.
  - rewrite IH. destruct (String.eqb_spec (node_type node) "TEX_IMAGE") as [Hty|Hty].
    + destruct (node_image node) as [image|] eqn:Him.
      * rewrite elem_of_union, elem_of_singleton. split.
        -- intros [[?| ->]|(n & Hin & ?)]; [by left| |].
           ++ right. exists node. split; [left|done].
           ++ right. exists n. split; [by right|done].
        -- intros [?|(n & Hin & Hn1 & Hn2)]; [by left; left|].
           apply elem_of_cons in Hin as [->|Hin].
           ++ left. right. congruence.
           ++ right. eauto.
      * split.
        -- intros [?|(n & Hin & ?)]; [by left|]. right. exists n. split; [by right|done].
        -- intros [?|(n & Hin & Hn1 & Hn2)]; [by left|].
           apply elem_of_cons in Hin as [->|Hin]; [congruence|]. right. eauto.
    + split.
      * intros [?|(n & Hin & ?)]; [by left|]. right. exists n. split; [by right|done].
      * intros [?|(n & Hin & Hn1 & Hn2)]; [by left|].
        apply elem_of_cons in Hin as [->|Hin]; [congruence|]. right. eauto.
Qed.

(** C8.  [get_images_from_material] returns the empty set for an absent
    material, for one with node-based shading disabled and for one
    without a node tree; otherwise an image is in the result exactly when
    some node of type TEX_IMAGE has it assigned.  The result is a set: it
    lists no image twice, and an image shared by several nodes counts
    once. *)
Theorem get_images_from_material_spec :
  get_images_from_material None = ∅ ∧
  (∀ mat, mat_use_nodes mat = false → get_images_from_material (Some mat) = ∅) ∧
  (∀ mat, mat_node_tree mat = None → get_images_from_material (Some mat) = ∅) ∧
  (∀ mat nodes i,
     mat_use_nodes mat = true → mat_node_tree mat = Some nodes →
     (i ∈ get_images_from_material (Some mat)
      ↔ ∃ node, node ∈ nodes ∧ node_type node = "TEX_IMAGE"
                ∧ node_image node = Some i)) ∧
  (∀ mat, NoDup (elements (get_images_from_material mat))) ∧
  (∀ name i,
     size (get_images_from_material
             (Some (mkMaterial name true
                      (Some [mkNode "TEX_IMAGE" (Some i); mkNode "TEX_IMAGE" None;
                             mkNode "TEX_IMAGE" (Some i)])))) = 1%nat).
Proof.
  split; [done|]. split; [|split; [|split; [|split]]].
  - intros mat Hu. unfold get_images_from_material. by rewrite Hu.
  - intros mat Ht. unfold get_images_from_material. rewrite Ht.
    by destruct (mat_use_nodes mat).
  - intros mat nodes i Hu Ht. unfold get_images_from_material.
    rewrite Hu, Ht. cbn [negb]. rewrite node_loop_elem.
    split; [intros [H|H]; [by apply not_elem_of_empty in H|done]|auto].
  - intros mat. apply NoDup_elements.
  - intros name i. cbn. 
    rewrite (left_id_L ∅ (∪)), (idemp_L (∪)). apply size_singleton.
Qed.

(** ** The working set *)


Lemma material_loop_elem (mats : list Material) (acc : gset img_ref) (i : img_ref) :
  i ∈ foldl (λ (images : gset img_ref) mat,
               if String.prefix "LV_" (mat_name mat)
               then images ∪ get_images_from_material (Some mat)
               else images) acc mats
  ↔ i ∈ acc ∨ ∃ mat, mat ∈ mats ∧ String.prefix "LV_" (mat_name mat) = true
                     ∧ i ∈ get_images_from_material (Some mat).
Proof.
  revert acc. induction mats as [|mat mats IH]; intros acc; cbn [foldl].
  - split; [auto|]. intros [?|(m & Hin & _)]; [done|]. by apply elem_of_nil in Hin.
  - rewrite IH. destruct (String.prefix "LV_" (mat_name mat)) eqn:Hp.
    + rewrite elem_of_union. split.
      * intros [[?|?]|(m & Hin & ?)]; [by left| |].
        -- right. exists mat. split; [left|done].
        -- right. exists m. split; [by right|done].
      * intros [?|(m & Hin & Hm1 & Hm2)]; [by left; left|].
        apply elem_of_cons in Hin as [->|Hin]; [by left; right|]. right. eauto.
    + split.
      * intros [?|(m & Hin & ?)]; [by left|]. right. exists m. split; [by right|done].
      * intros [?|(m & Hin & Hm1 & Hm2)]; [by left|].
        apply elem_of_cons in Hin as [->|Hin]; [congruence|]. right. eauto.
Qed.

Lemma images_to_resize_elem (doc : Document) (i : img_ref) :
  i ∈ images_to_resize doc
  ↔ ∃ mat, mat ∈ doc_materials doc ∧ String.prefix "LV_" (mat_name mat) = true
           ∧ i ∈ get_images_from_material (Some mat).
Proof.
  unfold images_to_resize. rewrite material_loop_elem.
  split; [intros [H|H]; [by apply not_elem_of_empty in H|done]|auto].
Qed.

(** ** The resize loop *)

Lemma resize_step_some (ms : Z) (st : Resizing) (r : img_ref) (img : Image) :
  rs_images st !! r = Some img →
  rs_images (resize_step ms st r) = <[r := (resize_effect ms img).1]> (rs_images st) ∧
  rs_log (resize_step ms st r) = rs_log st ++ [(resize_effect ms img).2] ∧
  rs_attempts (resize_step ms st r) = rs_attempts st ++ [r].
Proof.
  intros Hr. unfold resize_step, resize_effect. rewrite Hr.
  destruct (img_size img) as [w h] eqn:Hsz. cbn [fst snd].
  destruct (resize_image img ms) as [[[|] img']|e]; cbn; repeat split; try done.
  symmetry. by apply insert_id.
Qed.

Lemma resize_step_frame (ms : Z) (st : Resizing) (r r' : img_ref) :
  r ≠ r' → rs_images (resize_step ms st r) !! r' = rs_images st !! r'.
Proof.
  intros Hne. unfold resize_step.
  destruct (rs_images st !! r) as [img|]; [|done].
  destruct (img_size img) as [w h].
  destruct (resize_image img ms) as [[[|] img']|e]; cbn [rs_images];
    by rewrite ?lookup_insert_ne.
Qed.

Lemma resize_step_attempts (ms : Z) (st : Resizing) (r : img_ref) :
  rs_attempts (resize_step ms st r) = rs_attempts st ++ [r] ∧
  ∃ line, rs_log (resize_step ms st r) = rs_log st ++ [line].
Proof.
  unfold resize_step. destruct (rs_images st !! r) as [img|]; [|cbn; eauto].
  destruct (img_size img) as [w h].
  destruct (resize_image img ms) as [[[|] img']|e]; cbn; eauto.
Qed.

Lemma resize_loop_attempts (ms : Z) (order : list img_ref) (st : Resizing) :
  rs_attempts (foldl (resize_step ms) st order) = rs_attempts st ++ order ∧
  ∃ lines, rs_log (foldl (resize_step ms) st order) = rs_log st ++ lines ∧
           length lines = length order.
Proof.
  revert st. induction order as [|r order IH]; intros st; cbn [foldl].
  - rewrite app_nil_r. split; [done|]. exists []. by rewrite app_nil_r.
  - destruct (IH (resize_step ms st r)) as (Ha & lines & Hl & Hlen).
    destruct (resize_step_attempts ms st r) as (Ha' & line & Hl').
    rewrite Ha, Ha', Hl, Hl', <- !app_assoc. split; [done|].
    exists (line :: lines). cbn. by rewrite Hlen.
Qed.

Lemma resize_loop_frame (ms : Z) (order : list img_ref) (st : Resizing) (r : img_ref) :
  r ∉ order →
  rs_images (foldl (resize_step ms) st order) !! r = rs_images st !! r.
Proof.
  revert st. induction order as [|r0 order IH]; intros st Hnin; cbn [foldl]; [done|].
  apply not_elem_of_cons in Hnin as [Hne Hnin].
  rewrite IH by done. by apply resize_step_frame.
Qed.

(** Every image of the order gets its own iteration, whatever the other
    iterations did. *)
Lemma resize_loop_at (ms : Z) (order : list img_ref) (st : Resizing)
    (r : img_ref) (img : Image) :
  NoDup order → r ∈ order → rs_images st !! r = Some img →
  rs_images (foldl (resize_step ms) st order) !! r = Some (resize_effect ms img).1 ∧
  (resize_effect ms img).2 ∈ rs_log (foldl (resize_step ms) st order).
Proof.
  revert st. induction order as [|r0 order IH]; intros st Hnd Hin Hr; cbn [foldl].
  - by apply elem_of_nil in Hin.
  - apply NoDup_cons in Hnd as [Hr0 Hnd].
    apply elem_of_cons in Hin as [->|Hin].
    + destruct (resize_step_some ms st r0 img Hr) as (Him & Hlog & _).
      rewrite resize_loop_frame by done. rewrite Him, lookup_insert_eq.
      split; [done|].
      destruct (resize_loop_attempts ms order (resize_step ms st r0))
        as (_ & lines & -> & _).
      rewrite Hlog. apply elem_of_app. left. apply elem_of_app. right. by left.
    + apply IH; [done..|]. rewrite resize_step_frame; [done|]. by intros ->.
Qed.

Lemma resize_loop_dangling (ms : Z) (order : list img_ref) (st : Resizing)
    (r : img_ref) :
  rs_images st !! r = None →
  rs_images (foldl (resize_step ms) st order) !! r = None.
Proof.
  revert st. induction order as [|r0 order IH]; intros st Hr; cbn [foldl]; [done|].
  apply IH. destruct (decide (r0 = r)) as [->|Hne].
  - unfold resize_step. by rewrite Hr.
  - by rewrite resize_step_frame.
Qed.

(** The datablocks after the loop, image by image. *)
Lemma resize_images_lookup (ms : Z) (order : list img_ref)
    (images : gmap img_ref Image) (r : img_ref) :
  NoDup order →
  rs_images (resize_images ms order images) !! r
  = if decide (r ∈ order)
    then (λ img, (resize_effect ms img).1) <$> images !! r
    else images !! r.
Proof.
  intros Hnd. unfold resize_images. case_decide as Hin.
  - destruct (images !! r) as [img|] eqn:Hr; cbn [fmap option_fmap option_map].
    + by apply resize_loop_at.
    + by apply resize_loop_dangling.
  - by rewrite resize_loop_frame.
Qed.

(** The order in which the set is iterated does not matter to the
    datablocks the loop leaves. *)
Lemma resize_images_order (ms : Z) (order1 order2 : list img_ref)
    (images : gmap img_ref Image) :
  NoDup order1 → order1 ≡ₚ order2 →
  rs_images (resize_images ms order1 images)
  = rs_images (resize_images ms order2 images).
Proof.
  intros Hnd Hperm. apply map_eq. intros r.
  rewrite !resize_images_lookup by (done || by rewrite <- Hperm).
  repeat case_decide; try done.
  - exfalso. by rewrite <- Hperm in *.
  - exfalso. by rewrite Hperm in *.
Qed.

Lemma filter_eq_absent {A : Type} `{EqDecision A} (l : list A) (x : A) :
  x ∉ l → filter (λ y, y = x) l = [].
Proof.
  induction l as [|a l IH]; intros Hnin; [done|].
  apply not_elem_of_cons in Hnin as [Hne Hnin]. rewrite filter_cons.
  destruct (decide (a = x)) as [->|_]; [done|]. by apply IH.
Qed.

Lemma filter_eq_NoDup {A : Type} `{EqDecision A} (l : list A) (x : A) :
  NoDup l → x ∈ l → length (filter (λ y, y = x) l) = 1%nat.
Proof.
  induction l as [|a l IH]; intros Hnd Hin; [by apply elem_of_nil in Hin|].
  apply NoDup_cons in Hnd as [Ha Hnd]. rewrite filter_cons.
  destruct (decide (a = x)) as [->|Hne].
  - by rewrite filter_eq_absent.
  - apply elem_of_cons in Hin as [->|Hin]; [done|]. by apply IH.
Qed.

Section HostProperties.

Context {FileData : Type}.
Variable import_gltf : FileData → result Document.
Variable export_gltf : Document → result FileData.
Variable py_int : string → option Z.
Variable resolve_path : string → Path.

Abbreviation import_file := (import_file import_gltf).
Abbreviation process_model := (process_model import_gltf export_gltf).
Abbreviation batch_step := (batch_step import_gltf export_gltf).
Abbreviation batch_loop := (batch_loop import_gltf export_gltf).
Abbreviation run_batch := (run_batch import_gltf export_gltf).
Abbreviation main := (main import_gltf export_gltf py_int resolve_path).
Abbreviation settled := (settled import_gltf export_gltf).

(** ** process_model *)

(** A pass whose import succeeded: the document it leaves in the host,
    the lines it has printed, and its result, which is that of the export
    steps alone. *)
Lemma process_model_imported (p out : Path) (ms : Z) (w : World FileData)
    (doc : Document) :
  import_file (w_fs w) p = Ok doc →
  let st := resize_images ms (elements (images_to_resize doc)) (doc_images doc) in
  let doc' := mkDocument (doc_materials doc) (rs_images st) in
  let r := process_model p out ms w in
  w_doc r.2 = doc' ∧
  (∃ lines, w_log r.2 = w_log w ++ [LogProcessing p] ++ rs_log st
                         ++ [LogTexturesResized (rs_count st)] ++ lines) ∧
  r.1 = (fs ← mkdir_parents (parent out) (w_fs w);
         data ← export_gltf doc';
         fs' ← write_file fs out data;
         Ok ()).
Proof.
  intros Himp st doc' r. subst r. unfold process_model.
  cbn [log w_fs w_doc w_log]. rewrite Himp. fold st. fold doc'.
  unfold mbind.
  destruct (mkdir_parents (parent out) (w_fs w)) as [fs|e]; cbn [result_bind].
  - destruct (export_gltf doc') as [data|e]; cbn [result_bind].
    + destruct (write_file fs out data) as [fs'|e]; cbn [fst snd log w_doc w_log].
      * split; [done|]. split; [|done]. exists [LogExported out].
        by rewrite <- !app_assoc.
      * split; [done|]. split; [|done]. exists []. by rewrite <- !app_assoc, app_nil_r.
    + cbn [fst snd w_doc w_log]. split; [done|]. split; [|done].
      exists []. by rewrite <- !app_assoc, app_nil_r.
  - cbn [fst snd w_doc w_log]. split; [done|]. split; [|done].
    exists []. by rewrite <- !app_assoc, app_nil_r.
Qed.


(** C5.  In one pass the loop body is entered once for each image of the
    working set and for no other image: the attempts list no image twice,
    there is one printed line per image of the set, and an image that two
    selected materials both reference is attempted once.  The pass runs
    this loop once: the document it leaves is the one the loop produced. *)
Theorem one_attempt_per_image (doc : Document) (ms : Z) :
  let st := resize_images ms (elements (images_to_resize doc)) (doc_images doc) in
  NoDup (rs_attempts st) ∧
  (∀ i, i ∈ rs_attempts st ↔ i ∈ images_to_resize doc) ∧
  length (rs_attempts st) = size (images_to_resize doc) ∧
  length (rs_log st) = size (images_to_resize doc) ∧
  (∀ m1 m2 i,
     m1 ∈ doc_materials doc → m2 ∈ doc_materials doc →
     String.prefix "LV_" (mat_name m1) = true →
     String.prefix "LV_" (mat_name m2) = true →
     i ∈ get_images_from_material (Some m1) →
     i ∈ get_images_from_material (Some m2) →
     length (filter (λ r, r = i) (rs_attempts st)) = 1%nat) ∧
  (∀ p out (w : World FileData),
     import_file (w_fs w) p = Ok doc →
     w_doc (process_model p out ms w).2
     = mkDocument (doc_materials doc) (rs_images st)).
Proof.
  intros st. subst st. unfold resize_images.
  destruct (resize_loop_attempts ms (elements (images_to_resize doc))
              (mkResizing (doc_images doc) 0 [] [])) as (Ha & lines & Hl & Hlen).
  cbn [rs_attempts rs_log app] in Ha, Hl. rewrite Ha, Hl.
  split; [apply NoDup_elements|]. split; [intros i; apply elem_of_elements|].
  split; [done|]. split; [by rewrite Hlen|]. split.
  - intros m1 m2 i Hm1 _ Hp1 _ Hi1 _. apply filter_eq_NoDup; [apply NoDup_elements|].
    apply elem_of_elements, images_to_resize_elem. eauto.
  - intros p out w Himp.
    by destruct (process_model_imported p out ms w doc Himp) as (-> & _).
Qed.

(** C6.  In a pass whose import succeeded, every image of the working set
    gets its iteration whatever happens to the others.  An image whose
    resize raises is left as it was and a warning with its name and the
    exception is printed; an image whose resize returns is left as the
    call left it.  The result of the pass is that of the export steps
    alone, so a pass with failed images and a successful export returns
    normally, and the driver counts it as processed, not as failed. *)
Theorem resize_failure_is_isolated (p out : Path) (ms : Z) (w : World FileData)
    (doc : Document) :
  import_file (w_fs w) p = Ok doc →
  let st := resize_images ms (elements (images_to_resize doc)) (doc_images doc) in
  let doc' := mkDocument (doc_materials doc) (rs_images st) in
  let r := process_model p out ms w in
  (∀ i img e,
     i ∈ images_to_resize doc → doc_images doc !! i = Some img →
     resize_image img ms = Raise e →
     LogWarning (img_name img) e ∈ w_log r.2 ∧
     doc_images (w_doc r.2) !! i = Some img) ∧
  (∀ i img b img',
     i ∈ images_to_resize doc → doc_images doc !! i = Some img →
     resize_image img ms = Ok (b, img') →
     doc_images (w_doc r.2) !! i = Some img') ∧
  r.1 = (fs ← mkdir_parents (parent out) (w_fs w);
         data ← export_gltf doc';
         fs' ← write_file fs out data;
         Ok ()) ∧
  (∀ cfg c,
     out = out_file cfg p → ms = max_size cfg →
     path_exists (w_fs w) out = false → r.1 = Ok () →
     (batch_step cfg (c, w) p).1
     = mkCounters (S (processed c)) (skipped c) (failed c)).
Proof.
  intros Himp st doc' r.
  destruct (process_model_imported p out ms w doc Himp) as (Hdoc & (lines & Hlog) & Hres).
  fold st doc' r in Hdoc, Hlog, Hres.
  assert (Hat : ∀ i img, i ∈ images_to_resize doc → doc_images doc !! i = Some img →
                doc_images (w_doc r.2) !! i = Some (resize_effect ms img).1 ∧
                (resize_effect ms img).2 ∈ w_log r.2).
  { intros i img Hi Him. rewrite Hdoc, Hlog. cbn [doc_images doc'].
    destruct (resize_loop_at ms (elements (images_to_resize doc))
                (mkResizing (doc_images doc) 0 [] []) i img) as [H1 H2];
      [apply NoDup_elements|by apply elem_of_elements|done|].
    split; [done|]. rewrite !elem_of_app. right. right. by left. }
  split; [|split; [|split]].
  - intros i img e Hi Him He. destruct (Hat i img Hi Him) as [H1 H2].
    unfold resize_effect in H1, H2. rewrite He in H1, H2. done.
  - intros i img b img' Hi Him Hok. destruct (Hat i img Hi Him) as [H1 _].
    unfold resize_effect in H1. rewrite Hok in H1. by destruct b.
  - done.
  - intros cfg c -> -> Hex Hok. unfold batch_step. rewrite Hex.
    fold r. destruct r as [[[]|e] w']; [done|discriminate Hok].
Qed.

(** ** main *)

Lemma after_separator_app (pre tail : list string) :
  "--" ∉ pre → after_separator (pre ++ "--" :: tail) = Some tail.
Proof.
  induction pre as [|token pre IH]; intros Hnin; cbn [app after_separator].
  - done.
  - apply not_elem_of_cons in Hnin as [Hne Hnin].
    destruct (String.eqb_spec token "--") as [->|_]; [done|]. by apply IH.
Qed.

(** The command line that gives [--max_size] and nothing else. *)
Lemma parse_cli_args_max_size (pre : list string) (v : string) :
  "--" ∉ pre →
  parse_cli_args (pre ++ ["--"; "--max_size"; v]) = Ok (<["--max_size" := v]> ∅).
Proof.
  intros Hnin. unfold parse_cli_args. by rewrite after_separator_app.
Qed.

(** C7.  When the command line carries a value for [--max_size] that
    [int] rejects or reads as zero or less, [main] raises the invalid
    value error and the world is as it was: no directory made, no file
    read or written, nothing printed.  A value read as a positive
    integer becomes the bound of the run; without the flag the bound is
    512.  So it is for [... -- --max_size v]. *)
Theorem invalid_max_size_is_fatal (script_dir : Path) (argv : list string)
    (cli : gmap string string) (w : World FileData) :
  parse_cli_args argv = Ok cli →
  (∀ v, cli !! "--max_size" = Some v →
        (py_int v = None ∨ ∃ n, py_int v = Some n ∧ n ≤ 0) →
        main script_dir argv w
        = (Fatal (ValueError ("Invalid --max_size value: " +:+ v)), w)) ∧
  (∀ v n, cli !! "--max_size" = Some v → py_int v = Some n → 0 < n →
          ∃ cfg, resolve_config py_int resolve_path script_dir cli = Ok cfg ∧
                 max_size cfg = n ∧
                 main script_dir argv w = run_batch cfg w) ∧
  (cli !! "--max_size" = None →
   ∃ cfg, resolve_config py_int resolve_path script_dir cli = Ok cfg ∧
          max_size cfg = 512 ∧
          main script_dir argv w = run_batch cfg w) ∧
  (∀ pre v,
     "--" ∉ pre → py_int v = None ∨ (∃ n, py_int v = Some n ∧ n ≤ 0) →
     main script_dir (pre ++ ["--"; "--max_size"; v]) w
     = (Fatal (ValueError ("Invalid --max_size value: " +:+ v)), w)).
Proof.
  intros Hcli.
  assert (Hbad : ∀ argv' cli' v,
            parse_cli_args argv' = Ok cli' → cli' !! "--max_size" = Some v →
            py_int v = None ∨ (∃ n, py_int v = Some n ∧ n ≤ 0) →
            main script_dir argv' w
            = (Fatal (ValueError ("Invalid --max_size value: " +:+ v)), w)).
  { intros argv' cli' v Hcli' Hv Hinv. unfold main. rewrite Hcli'.
    unfold resolve_config. rewrite Hv.
    destruct Hinv as [->|(n & -> & Hn)]; [done|].
    destruct (Z.leb_spec n 0); [done|lia]. }
  split; [|split; [|split]].
  - intros v. by apply Hbad.
  - intros v n Hv Hn Hpos. unfold main. rewrite Hcli. unfold resolve_config.
    rewrite Hv, Hn. destruct (Z.leb_spec n 0); [lia|]. cbn [mbind result_bind]. eauto.
  - intros Hv. unfold main. rewrite Hcli. unfold resolve_config.
    rewrite Hv. cbn [mbind result_bind]. eauto.
  - intros pre v Hpre Hinv.
    apply (Hbad _ _ v (parse_cli_args_max_size pre v Hpre)); [|done].
    apply lookup_insert_eq.
Qed.

(** Each file moves exactly one counter, by one. *)
Lemma batch_step_counts (cfg : Config) (c : Counters) (w : World FileData)
    (glb_file : Path) :
  let c' := (batch_step cfg (c, w) glb_file).1 in
  c' = mkCounters (S (processed c)) (skipped c) (failed c) ∨
  c' = mkCounters (processed c) (S (skipped c)) (failed c) ∨
  c' = mkCounters (processed c) (skipped c) (S (failed c)).
Proof.
  unfold batch_step. destruct (path_exists (w_fs w) (out_file cfg glb_file)); [auto|].
  destruct (process_model glb_file (out_file cfg glb_file) (max_size cfg) w)
    as [[[]|e] w']; auto.
Qed.

Lemma batch_loop_counts (cfg : Config) (glb_files : list Path)
    (acc : Counters * World FileData) :
  let c := acc.1 in
  let c' := (batch_loop cfg glb_files acc).1 in
  (processed c' + skipped c' + failed c'
   = processed c + skipped c + failed c + length glb_files)%nat.
Proof.
  revert acc. induction glb_files as [|g glb_files IH]; intros acc; cbn zeta.
  - cbn. lia.
  - change (batch_loop cfg (g :: glb_files) acc)
      with (batch_loop cfg glb_files (batch_step cfg acc g)).
    specialize (IH (batch_step cfg acc g)). cbn zeta in IH. rewrite IH.
    destruct acc as [c w]. cbn [fst length].
    pose proof (batch_step_counts cfg c w g) as Hs. cbn zeta in Hs.
    destruct Hs as [-> | [-> | ->]]; cbn; lia.
Qed.

Lemma rglob_sorted_length (fs : gmap Path (Entry FileData)) (dir : Path) :
  length (rglob_sorted fs dir) = size (glb_set fs dir).
Proof.
  unfold rglob_sorted. by rewrite merge_sort_Permutation.
Qed.

(** A run that reaches the summary went through every stage before it. *)
Lemma main_summary_inv (script_dir : Path) (argv : list string)
    (w w' : World FileData) (c : Counters) :
  main script_dir argv w = (Summary c, w') →
  ∃ cli cfg fs,
    parse_cli_args argv = Ok cli ∧
    resolve_config py_int resolve_path script_dir cli = Ok cfg ∧
    mkdir_parents (output_dir cfg) (w_fs w) = Ok fs ∧
    path_exists fs (input_dir cfg) = true ∧
    let glb_files := rglob_sorted fs (input_dir cfg) in
    let start := log (LogHeader (input_dir cfg) (output_dir cfg) (max_size cfg)
                                (length glb_files))
                     (mkWorld fs (w_doc w) (w_log w)) in
    batch_loop cfg glb_files (mkCounters 0 0 0, start)
    = (c, mkWorld (w_fs w') (w_doc w') (removelast (w_log w'))) ∧
    glb_files ≠ [].
Proof.
  unfold main. intros H.
  destruct (parse_cli_args argv) as [cli|e] eqn:Hcli; [|done].
  destruct (resolve_config py_int resolve_path script_dir cli) as [cfg|e] eqn:Hcfg;
    [|done].
  unfold run_batch in H.
  destruct (mkdir_parents (output_dir cfg) (w_fs w)) as [fs|e] eqn:Hmk; [|done].
  destruct (path_exists fs (input_dir cfg)) eqn:Hex; cbn [negb] in H; [|done].
  exists cli, cfg, fs. do 4 (split; [done|]). cbn zeta.
  destruct (rglob_sorted fs (input_dir cfg)) as [|g gs] eqn:Hfiles; [done|].
  split; [|done].
  destruct (batch_loop cfg (g :: gs) _) as [c1 w1] eqn:Hloop.
  injection H as -> <-. cbn [log w_fs w_doc w_log].
  rewrite removelast_last. by destruct w1.
Qed.

(** C10.  When [main] reaches the summary, the three counters add up to
    the number of .glb entries found under the input directory, and each
    file has moved exactly one of them by one. *)
Theorem counters_partition_files (script_dir : Path) (argv : list string)
    (w w' : World FileData) (c : Counters) :
  main script_dir argv w = (Summary c, w') →
  (∃ cli cfg fs,
     parse_cli_args argv = Ok cli ∧
     resolve_config py_int resolve_path script_dir cli = Ok cfg ∧
     mkdir_parents (output_dir cfg) (w_fs w) = Ok fs ∧
     (processed c + skipped c + failed c)%nat
     = length (rglob_sorted fs (input_dir cfg)) ∧
     length (rglob_sorted fs (input_dir cfg)) = size (glb_set fs (input_dir cfg))) ∧
  (∀ cfg c0 (w0 : World FileData) glb_file,
     let c1 := (batch_step cfg (c0, w0) glb_file).1 in
     c1 = mkCounters (S (processed c0)) (skipped c0) (failed c0) ∨
     c1 = mkCounters (processed c0) (S (skipped c0)) (failed c0) ∨
     c1 = mkCounters (processed c0) (skipped c0) (S (failed c0))).
Proof.
  intros Hmain. split; [|apply batch_step_counts].
  destruct (main_summary_inv script_dir argv w w' c Hmain)
    as (cli & cfg & fs & Hcli & Hcfg & Hmk & _ & Hloop & _).
  exists cli, cfg, fs. do 3 (split; [done|]). split; [|apply rglob_sorted_length].
  cbn zeta in Hloop.
  pose proof (batch_loop_counts cfg (rglob_sorted fs (input_dir cfg))
                (mkCounters 0 0 0,
                 log (LogHeader (input_dir cfg) (output_dir cfg) (max_size cfg)
                                (length (rglob_sorted fs (input_dir cfg))))
                     (mkWorld fs (w_doc w) (w_log w)))) as Hcount.
  cbn zeta in Hcount. rewrite Hloop in Hcount. cbn in Hcount. lia.
Qed.

(** ** The file system across runs *)

Lemma extends_refl (out_dir : Path) (fs : gmap Path (Entry FileData)) :
  extends out_dir fs fs.
Proof. split; [done|]. split; auto. Qed.

Lemma extends_trans (out_dir : Path) (fs1 fs2 fs3 : gmap Path (Entry FileData)) :
  extends out_dir fs1 fs2 → extends out_dir fs2 fs3 → extends out_dir fs1 fs3.
Proof.
  intros (Hs1 & Hk1 & Hf1) (Hs2 & Hk2 & Hf2). split; [by etrans|]. split.
  - intros q Hq. destruct (Hk2 q Hq) as [H|H]; auto.
  - intros q Hq. destruct (Hf2 q Hq) as [H|H]; auto.
Qed.

Lemma is_file_mono (fs fs' : gmap Path (Entry FileData)) (q : Path) :
  fs ⊆ fs' → is_file fs q = true → is_file fs' q = true.
Proof.
  intros Hs. unfold is_file. destruct (fs !! q) as [[d|]|] eqn:Hq; try done.
  by rewrite (lookup_weaken _ _ _ _ Hq Hs).
Qed.


Lemma path_exists_true (fs : gmap Path (Entry FileData)) (q : Path) :
  path_exists fs q = true ↔ is_Some (fs !! q).
Proof. unfold path_exists. apply bool_decide_eq_true. Qed.

Lemma path_exists_false (fs : gmap Path (Entry FileData)) (q : Path) :
  path_exists fs q = false ↔ fs !! q = None.
Proof.
  unfold path_exists. rewrite bool_decide_eq_false, <- eq_None_not_Some. done.
Qed.

Lemma elem_of_prefixes (p q : Path) : q ∈ prefixes p ↔ q `prefix_of` p.
Proof.
  unfold prefixes. rewrite list_elem_of_fmap. split.
  - intros (n & -> & _). apply prefix_take.
  - intros [k ->]. exists (length q). split.
    + by rewrite take_app_length.
    + apply elem_of_seq. rewrite length_app. lia.
Qed.

Lemma make_dirs_lookup (dirs : list Path) (fs : gmap Path (Entry FileData)) (q : Path) :
  foldr (λ q fs', <[q := Dir]> fs') fs dirs !! q
  = if decide (q ∈ dirs) then Some Dir else fs !! q.
Proof.
  induction dirs as [|d dirs IH]; cbn [foldr].
  - destruct (decide (q ∈ [])) as [H|_]; [by apply elem_of_nil in H|done].
  - destruct (decide (d = q)) as [->|Hne].
    + rewrite lookup_insert_eq. destruct (decide (q ∈ q :: dirs)) as [_|H]; [done|].
      exfalso. apply H. by left.
    + rewrite lookup_insert_ne by done. rewrite IH.
      destruct (decide (q ∈ dirs)) as [Hin|Hnin].
      * destruct (decide (q ∈ d :: dirs)) as [_|H]; [done|]. exfalso. apply H. by right.
      * destruct (decide (q ∈ d :: dirs)) as [H|_]; [|done].
        apply elem_of_cons in H as [->|H]; done.
Qed.

(** A successful [mkdir]: the path and its ancestors are directories, no
    other entry changes, and none of them was a file. *)
Lemma mkdir_parents_ok (p : Path) (fs fs' : gmap Path (Entry FileData)) :
  mkdir_parents p fs = Ok fs' →
  (∀ q, fs' !! q = if decide (q `prefix_of` p) then Some Dir else fs !! q) ∧
  (∀ q, q `prefix_of` p → is_file fs q = false).
Proof.
  unfold mkdir_parents.
  destruct (existsb (is_file fs) (prefixes p)) eqn:Hex; [done|].
  intros Heq.
  assert (fs' = foldr (λ q fs', <[q := Dir]> fs') fs (prefixes p)) as ->
    by congruence.
  clear Heq. split.
  - intros q. rewrite make_dirs_lookup.
    repeat case_decide; try done.
    + exfalso. by apply elem_of_prefixes in H.
    + exfalso. by apply elem_of_prefixes in H0.
  - intros q Hq. destruct (is_file fs q) eqn:Hf; [|done].
    assert (existsb (is_file fs) (prefixes p) = true); [|congruence].
    apply existsb_exists. exists q. split; [|done].
    apply list_elem_of_In, elem_of_prefixes, Hq.
Qed.

Lemma mkdir_parents_extends (out_dir p : Path) (fs fs' : gmap Path (Entry FileData)) :
  out_dir `prefix_of` p → mkdir_parents p fs = Ok fs' →
  extends out_dir fs fs' ∧ ∀ q, is_file fs' q = is_file fs q.
Proof.
  intros Hp Hmk. destruct (mkdir_parents_ok p fs fs' Hmk) as [Hl Hnf].
  assert (Hfile : ∀ q, is_file fs' q = is_file fs q).
  { intros q. unfold is_file at 1. rewrite Hl.
    destruct (decide (q `prefix_of` p)) as [Hq|_]; [|done].
    by rewrite Hnf. }
  split; [|done]. split; [|split].
  - apply map_subseteq_spec. intros q x Hq. rewrite Hl.
    destruct (decide (q `prefix_of` p)) as [Hqp|_]; [|done].
    specialize (Hnf q Hqp). unfold is_file in Hnf. rewrite Hq in Hnf.
    by destruct x.
  - intros q Hq. rewrite Hl in Hq.
    destruct (decide (q `prefix_of` p)) as [Hqp|_]; [|by left].
    right. destruct (prefix_weak_total _ _ _ Hqp Hp); auto.
  - intros q Hq. left. by rewrite <- Hfile.
Qed.

(** With more entries, a failing [mkdir] still fails. *)
Lemma mkdir_parents_raise_mono (p : Path) (fs fs2 : gmap Path (Entry FileData))
    (e : exn) :
  fs ⊆ fs2 → mkdir_parents p fs = Raise e → ∃ e', mkdir_parents p fs2 = Raise e'.
Proof.
  intros Hs. unfold mkdir_parents.
  destruct (existsb (is_file fs) (prefixes p)) eqn:Hex; [|done]. intros _.
  apply existsb_exists in Hex as (q & Hq & Hf).
  assert (existsb (is_file fs2) (prefixes p) = true) as ->; [|eauto].
  apply existsb_exists. exists q. split; [done|]. by eapply is_file_mono.
Qed.

Lemma out_file_shape (cfg : Config) (g : Path) :
  strictly_under (input_dir cfg) g →
  ∃ rel, rel ≠ [] ∧ out_file cfg g = output_dir cfg ++ rel.
Proof.
  intros [[k ->] Hne]. exists k. unfold out_file. rewrite drop_app_length.
  split; [|done]. intros ->. by rewrite app_nil_r in Hne.
Qed.

Lemma parent_below (out_dir rel : Path) :
  rel ≠ [] →
  out_dir `prefix_of` parent (out_dir ++ rel) ∧
  ¬ (out_dir ++ rel) `prefix_of` parent (out_dir ++ rel).
Proof.
  intros Hrel. unfold parent. rewrite removelast_app by done. split.
  - by exists (removelast rel).
  - intros Hp. apply prefix_length in Hp. rewrite !length_app in Hp.
    rewrite (app_removelast_last "" Hrel) in Hp at 1.
    rewrite length_app in Hp. cbn in Hp. lia.
Qed.

(** The entries a pass leaves: those it found, directories on the way to
    its output, and the output when it returns normally.  It is run only
    when its output path is free. *)
Lemma process_model_fs (out_dir rel p : Path) (ms : Z) (w : World FileData) :
  rel ≠ [] → w_fs w !! (out_dir ++ rel) = None →
  let r := process_model p (out_dir ++ rel) ms w in
  extends out_dir (w_fs w) (w_fs r.2) ∧
  (r.1 = Ok () → is_Some (w_fs r.2 !! (out_dir ++ rel))).
Proof.
  intros Hrel Hfree r. subst r. unfold process_model. cbn [log w_fs w_doc w_log].
  destruct (parent_below out_dir rel Hrel) as [Hpar Hnpar].
  destruct (import_file (w_fs w) p) as [doc|e]; cbn [fst snd w_fs].
  2:{ split; [apply extends_refl|done]. }
  destruct (mkdir_parents (parent (out_dir ++ rel)) (w_fs w)) as [fs1|e] eqn:Hmk;
    cbn [fst snd w_fs].
  2:{ split; [apply extends_refl|done]. }
  destruct (mkdir_parents_extends out_dir _ _ _ Hpar Hmk) as [Hext Hfiles].
  destruct (mkdir_parents_ok _ _ _ Hmk) as [Hl _].
  assert (Hfree1 : fs1 !! (out_dir ++ rel) = None).
  { rewrite Hl. case_decide; done. }
  destruct (export_gltf _) as [data|e]; cbn [mbind result_bind fst snd w_fs].
  2:{ split; [done|done]. }
  unfold write_file. rewrite Hfree1. cbn [fst snd w_fs log].
  split; [|by rewrite lookup_insert_eq].
  eapply extends_trans; [done|]. split; [by apply insert_subseteq|]. split.
  - intros q Hq. destruct (decide (q = out_dir ++ rel)) as [->|Hne].
    + right. right. by exists rel.
    + left. by rewrite lookup_insert_ne in Hq.
  - intros q Hq. unfold is_file in Hq |- *.
    destruct (decide (q = out_dir ++ rel)) as [->|Hne].
    + right. split; [by exists rel|]. intros Heq.
      apply Hrel. apply (inj (app out_dir)). by rewrite app_nil_r.
    + left. by rewrite lookup_insert_ne in Hq.
Qed.

(** A pass that raised raises again in every world with more entries. *)
Lemma process_model_raise_mono (out_dir rel p : Path) (ms : Z)
    (w w' w2 : World FileData) (e : exn) :
  rel ≠ [] → w_fs w !! (out_dir ++ rel) = None → is_Some (w_fs w !! p) →
  process_model p (out_dir ++ rel) ms w = (Raise e, w') →
  w_fs w ⊆ w_fs w2 →
  ∃ e' w3, process_model p (out_dir ++ rel) ms w2 = (Raise e', w3).
Proof.
  intros Hrel Hfree [x Hx] Hraise Hsub.
  assert (Himp : import_file (w_fs w2) p = import_file (w_fs w) p).
  { unfold import_file, read_file. by rewrite Hx, (lookup_weaken _ _ _ _ Hx Hsub). }
  assert (Hgoal : ∃ e', (process_model p (out_dir ++ rel) ms w2).1 = Raise e').
  2:{ destruct Hgoal as [e' He']. exists e'.
      destruct (process_model p (out_dir ++ rel) ms w2) as [r2 w3].
      cbn in He'. subst r2. eauto. }
  destruct (import_file (w_fs w) p) as [doc|e0] eqn:Hi.
  2:{ unfold process_model. cbn [log w_fs]. rewrite Himp. cbn. eauto. }
  destruct (process_model_imported p (out_dir ++ rel) ms w doc Hi) as (_ & _ & Hr).
  destruct (process_model_imported p (out_dir ++ rel) ms w2 doc Himp) as (_ & _ & Hr2).
  rewrite Hraise in Hr. cbn [fst] in Hr. rewrite Hr2. clear Hr2.
  destruct (parent_below out_dir rel Hrel) as [Hpar Hnpar].
  destruct (mkdir_parents (parent (out_dir ++ rel)) (w_fs w)) as [fs1|e1] eqn:Hmk.
  2:{ destruct (mkdir_parents_raise_mono _ _ _ _ Hsub Hmk) as [e' ->]. cbn. eauto. }
  cbn [mbind result_bind] in Hr.
  destruct (mkdir_parents (parent (out_dir ++ rel)) (w_fs w2)) as [fs2|e2];
    cbn [mbind result_bind]; [|eauto].
  destruct (export_gltf _) as [data|e3]; cbn [mbind result_bind] in Hr |- *; [|eauto].
  exfalso. destruct (mkdir_parents_ok _ _ _ Hmk) as [Hl _].
  unfold write_file in Hr. rewrite Hl in Hr.
  case_decide; [done|]. rewrite Hfree in Hr. done.
Qed.



(** The three ways one file goes through the loop body. *)
Lemma batch_step_cases (cfg : Config) (c : Counters) (w : World FileData) (g : Path) :
  let r := batch_step cfg (c, w) g in
  (is_Some (w_fs w !! out_file cfg g) ∧
   r.1 = mkCounters (processed c) (S (skipped c)) (failed c) ∧
   w_fs r.2 = w_fs w) ∨
  (w_fs w !! out_file cfg g = None ∧
   ∃ w', process_model g (out_file cfg g) (max_size cfg) w = (Ok (), w') ∧
         r.1 = mkCounters (S (processed c)) (skipped c) (failed c) ∧
         w_fs r.2 = w_fs w') ∨
  (w_fs w !! out_file cfg g = None ∧
   ∃ e w', process_model g (out_file cfg g) (max_size cfg) w = (Raise e, w') ∧
           r.1 = mkCounters (processed c) (skipped c) (S (failed c)) ∧
           w_fs r.2 = w_fs w').
Proof.
  unfold batch_step.
  destruct (path_exists (w_fs w) (out_file cfg g)) eqn:Hex.
  - left. apply path_exists_true in Hex. done.
  - right. apply path_exists_false in Hex.
    destruct (process_model g (out_file cfg g) (max_size cfg) w) as [[[]|e] w'].
    + left. eauto.
    + right. eauto 10.
Qed.

(** The first run: the entries only grow, every file ends settled, and
    every file counted as processed or skipped has its output. *)
Lemma batch_loop_run1 (cfg : Config) (glb_files : list Path) (c : Counters)
    (w : World FileData) :
  Forall (strictly_under (input_dir cfg)) glb_files →
  Forall (λ g, is_Some (w_fs w !! g)) glb_files →
  let r := batch_loop cfg glb_files (c, w) in
  extends (output_dir cfg) (w_fs w) (w_fs r.2) ∧
  Forall (settled cfg (w_fs r.2)) glb_files ∧
  (processed r.1 + skipped r.1
   ≤ processed c + skipped c + outputs_present cfg (w_fs r.2) glb_files)%nat ∧
  (failed c ≤ failed r.1)%nat ∧
  (failed r.1 = failed c →
   Forall (λ g, is_Some (w_fs r.2 !! out_file cfg g)) glb_files).
Proof.
  revert c w. induction glb_files as [|g glb_files IH]; intros c w Hunder Hthere.
  - cbn zeta. unfold batch_loop, outputs_present. cbn [foldl fst snd].
    rewrite filter_nil. cbn [length].
    split; [apply extends_refl|]. split; [constructor|].
    split; [lia|]. split; [done|]. intros _. constructor.
  - apply Forall_cons in Hunder as [Hg Hunder].
    apply Forall_cons in Hthere as [Hgin Hthere].
    change (batch_loop cfg (g :: glb_files) (c, w))
      with (batch_loop cfg glb_files (batch_step cfg (c, w) g)).
    destruct (out_file_shape cfg g Hg) as (rel & Hrel & Hout).
    pose proof (batch_step_cases cfg c w g) as Hstep. cbn zeta in Hstep.
    destruct (batch_step cfg (c, w) g) as [c1 w1]. cbn [fst snd] in Hstep.
    assert (Hext1 : extends (output_dir cfg) (w_fs w) (w_fs w1)).
    { destruct Hstep as [(_ & _ & ->)|[(Hfree & w' & Hpm & _ & ->)|(Hfree & e & w' & Hpm & _ & ->)]].
      - apply extends_refl.
      - rewrite Hout in Hfree, Hpm.
        destruct (process_model_fs (output_dir cfg) rel g (max_size cfg) w Hrel Hfree)
          as [H _]. by rewrite Hpm in H.
      - rewrite Hout in Hfree, Hpm.
        destruct (process_model_fs (output_dir cfg) rel g (max_size cfg) w Hrel Hfree)
          as [H _]. by rewrite Hpm in H. }
    assert (Hsub1 : w_fs w ⊆ w_fs w1) by apply Hext1.
    specialize (IH c1 w1 Hunder).
    destruct IH as (Hext & Hsettled & Hcount & Hfailed & Hnofail).
    { eapply Forall_impl; [exact Hthere|]. cbn. eauto using lookup_weaken_is_Some. }
    set (r := batch_loop cfg glb_files (c1, w1)) in *.
    assert (Hsub : w_fs w1 ⊆ w_fs r.2) by apply Hext.
    split; [by eapply extends_trans|].
    unfold outputs_present in *. rewrite filter_cons.
    destruct Hstep as [(Hsome & -> & Hfs)|[(Hfree & w' & Hpm & -> & Hfs)|(Hfree & e & w' & Hpm & -> & Hfs)]];
      cbn [processed skipped failed] in *.
    + assert (Hfin : is_Some (w_fs r.2 !! out_file cfg g)).
      { eapply lookup_weaken_is_Some; [|exact Hsub]. by rewrite Hfs. }
      split; [apply Forall_cons; split; [by left|done]|].
      case_decide; [|done]. cbn [length].
      split; [lia|]. split; [lia|]. intros Hf. apply Forall_cons. auto.
    + assert (Hfin : is_Some (w_fs r.2 !! out_file cfg g)).
      { eapply lookup_weaken_is_Some; [|exact Hsub]. rewrite Hfs.
        rewrite Hout in Hfree, Hpm |- *.
        destruct (process_model_fs (output_dir cfg) rel g (max_size cfg) w Hrel Hfree)
          as [_ H]. rewrite Hpm in H. by apply H. }
      split; [apply Forall_cons; split; [by left|done]|].
      case_decide; [|done]. cbn [length].
      split; [lia|]. split; [lia|]. intros Hf. apply Forall_cons. auto.
    + split.
      { apply Forall_cons; split; [|done]. right. intros w2 Hw2.
        rewrite Hout in Hfree, Hpm |- *.
        eapply process_model_raise_mono; [done..|]. by repeat (etrans; [eassumption|]). }
      split; [case_decide; cbn [length]; lia|]. split; [lia|]. intros Hf. lia.
Qed.


(** What the sorted listing holds. *)
Lemma elem_of_rglob_sorted (fs : gmap Path (Entry FileData)) (dir g : Path) :
  g ∈ rglob_sorted fs dir ↔ g ∈ glb_set fs dir.
Proof.
  unfold rglob_sorted. rewrite merge_sort_Permutation. apply elem_of_elements.
Qed.

Lemma elem_of_glb_set (fs : gmap Path (Entry FileData)) (dir g : Path) :
  g ∈ glb_set fs dir
  ↔ strictly_under dir g ∧ matches_glb g = true ∧ is_Some (fs !! g).
Proof.
  unfold glb_set, strictly_under. rewrite elem_of_filter, elem_of_dom. tauto.
Qed.





End HostProperties.

(** ** The rounding model on samples *)

(** On two hundred pseudo-random sizes and on the edge cases the model
    of [int((M / l) * s)] gives what the Standard Library's binary64
    operations give, overflow included. *)
Lemma scaled_minor_agrees_with_SpecFloat :
  forallb agrees_with_reference (sample_sizes 200 12345 ++ edge_sizes) = true.
Proof. vm_compute. reflexivity. Qed.

(** The truncated product falls on either side of the exact quotient:
    one below it for a square of side 850 and the bound 512, one above
    it for sizes near the host's largest. *)
Lemma scaled_minor_off_by_one :
  scaled_minor 512 850 850 = Ok 511 ∧ 512 * 850 / 850 = 512 ∧
  scaled_minor 1048944620 1684525706 1558496696 = Ok 970467069 ∧
  1048944620 * 1558496696 / 1684525706 = 970467068.
Proof. vm_compute. done. Qed.

(** ** The script at work *)

(** The specification's end-to-end example: the 2048 x 1024 image of
    [LV_body] becomes 512 x 256, the image of [Other] stays, and both
    models are processed. *)
Lemma two_models_run :
  (run_main ["d"] argv_two_models world_two_models).1
  = Summary (mkCounters 2 0 0) ∧
  w_fs (run_main ["d"] argv_two_models world_two_models).2
    !! ["d"; "out"; "a"; "model1.glb"]
  = Some (File (Model (mkDocument (doc_materials doc_body)
                                  {[ 1%positive := mkImage "body_albedo" (512, 256) true ]}))) ∧
  w_fs (run_main ["d"] argv_two_models world_two_models).2
    !! ["d"; "out"; "b"; "model2.glb"]
  = Some (File (Model doc_other)).
Proof. vm_compute. done. Qed.

Lemma resize_failure_is_isolated_witness :
  let p := ["d"; "in"; "m.glb"] in
  let out := ["d"; "out"; "m.glb"] in
  let w := world_mixed in
  let r := process_model model_import model_export p out 512 w in
  import_file model_import (w_fs w) p = Ok doc_mixed ∧
  (∀ i img e,
     i ∈ images_to_resize doc_mixed → doc_images doc_mixed !! i = Some img →
     resize_image img 512 = Raise e →
     LogWarning (img_name img) e ∈ w_log r.2 ∧
     doc_images (w_doc r.2) !! i = Some img) ∧
  r.1 = Ok ().
Proof.
  intros p out w r.
  split; [vm_compute; reflexivity|].
  pose proof (resize_failure_is_isolated model_import model_export p out 512 w
                doc_mixed ltac:(vm_compute; reflexivity)) as H.
  cbn zeta in H. destruct H as (Hraise & _ & Hres & _).
  split; [exact Hraise|]. unfold r. rewrite Hres. vm_compute. reflexivity.
Defined.

Lemma invalid_max_size_is_fatal_witness :
  let argv := ["blender"; "--"; "--max_size"; "-4"] in
  let cli : gmap string string := {[ "--max_size" := "-4" ]} in
  parse_cli_args argv = Ok cli ∧
  run_main ["d"] argv world_two_models
  = (Fatal (ValueError "Invalid --max_size value: -4"), world_two_models).
Proof.
  intros argv cli.
  assert (Hcli : parse_cli_args argv = Ok cli) by (vm_compute; reflexivity).
  split; [exact Hcli|].
  destruct (invalid_max_size_is_fatal model_import model_export decimal_int split_path
              ["d"] argv cli world_two_models Hcli) as (Hbad & _ & _).
  apply (Hbad "-4"); [vm_compute; reflexivity|].
  right. exists (-4). split; [vm_compute; reflexivity|lia].
Defined.

Lemma counters_partition_files_witness :
  let r := run_main ["d"] argv_two_models world_two_models in
  r.1 = Summary (mkCounters 2 0 0) ∧
  ∃ cli cfg fs,
    parse_cli_args argv_two_models = Ok cli ∧
    resolve_config decimal_int split_path ["d"] cli = Ok cfg ∧
    mkdir_parents (output_dir cfg) (w_fs world_two_models) = Ok fs ∧
    (2 + 0 + 0)%nat = length (rglob_sorted fs (input_dir cfg)) ∧
    length (rglob_sorted fs (input_dir cfg)) = size (glb_set fs (input_dir cfg)).
Proof.
  intros r. split; [vm_compute; reflexivity|].
  exact (proj1 (counters_partition_files model_import model_export decimal_int
                  split_path ["d"] argv_two_models world_two_models r.2
                  (mkCounters 2 0 0) ltac:(vm_compute; reflexivity))).
Defined.



(** * Further properties *)

(** ** Exact quotients *)

Lemma rnd_half_even_exact (q b : Z) : 0 < b → rnd_half_even (q * b) b = q.
Proof.
  intros Hb. unfold rnd_half_even.
  rewrite Z.div_mul, Z.mod_mul by lia.
  destruct (Z.compare_spec (2 * 0) b); (done || lia).
Qed.

(** A quotient that is a double, [n / 2^j] with [n] below 2^53, is not
    changed by the rounding. *)
Lemma fl_pos_dyadic (a b n j : Z) :
  0 < a → 0 < b → a < 2 ^ 52 * b → b ≤ 2 ^ 1020 * a →
  0 ≤ j → n < 2 ^ 53 → a * 2 ^ j = n * b →
  ∃ m U, fl_pos a b = Some (Float m U) ∧ 0 < U ∧ m * b = a * U.
Proof.
  intros Ha Hb Hhi Hlo Hj Hn Hdy.
  pose proof (fl_shift_normal a b Ha Hb Hlo) as Hs. cbv zeta in Hs.
  unfold fl_pos. set (t := fl_shift a b) in *.
  assert (HJ : 0 < 2 ^ j) by (apply Z.pow_pos_nonneg; lia).
  assert (H53 : 2 ^ 53 = 9007199254740992) by reflexivity.
  assert (H52 : 2 ^ 52 = 4503599627370496) by reflexivity.
  rewrite H53, H52 in *.
  assert (Ht : j ≤ t).
  { destruct (Z_le_gt_dec j t) as [|Hlt]; [done|exfalso].
    pose proof (upscale_pos t) as HU. pose proof (downscale_pos t) as HD.
    assert (Hsc : upscale t * 2 ≤ 2 ^ j * downscale t).
    { destruct (Z_le_gt_dec 0 t) as [Ht0|Ht0].
      - destruct (upscale_nonneg t Ht0) as [-> ->].
        replace j with (t + (j - t)) by lia. rewrite Z.pow_add_r by lia.
        assert (2 ^ 1 ≤ 2 ^ (j - t)) by (apply Z.pow_le_mono_r; lia).
        change (2 ^ 1) with 2 in *.
        assert (0 < 2 ^ t) by (apply Z.pow_pos_nonneg; lia). nia.
      - destruct (downscale_neg t ltac:(lia)) as [-> ->].
        assert (2 ^ 1 ≤ 2 ^ (- t)) by (apply Z.pow_le_mono_r; lia).
        change (2 ^ 1) with 2 in *. nia. }
    assert (a * (upscale t * 2) ≤ a * (2 ^ j * downscale t))
      by (apply Z.mul_le_mono_nonneg_l; lia).
    assert (a * (2 ^ j * downscale t) = n * (b * downscale t)).
    { rewrite Z.mul_assoc, Hdy. ring. }
    assert (0 < b * downscale t) by nia. nia. }
  destruct (upscale_nonneg t ltac:(lia)) as [Hu Hd]. rewrite Hd in *.
  rewrite !Z.mul_1_r in *.
  assert (HG : 0 < 2 ^ (t - j)) by (apply Z.pow_pos_nonneg; lia).
  assert (HU : upscale t = 2 ^ j * 2 ^ (t - j)).
  { rewrite Hu, <- Z.pow_add_r by lia. f_equal. lia. }
  assert (HaU : a * upscale t = n * 2 ^ (t - j) * b).
  { rewrite HU, Z.mul_assoc, Hdy. ring. }
  rewrite HaU, rnd_half_even_exact by done.
  assert (Hm : n * 2 ^ (t - j) < 9007199254740992) by nia.
  pose proof (upscale_pos t) as HUp.
  destruct (Z.leb_spec (2 ^ emax * upscale t) (n * 2 ^ (t - j))) as [Hov|_].
  { exfalso. unfold emax in Hov.
    assert (2 ^ 53 < 2 ^ 1024) by (apply Z.pow_lt_mono_r; lia). nia. }
  eexists _, _. split; [done|]. split; [done|]. lia.
Qed.

(** [int((M / l) * s)] when [l] is [M] times a power of two: both
    operations are exact and the result is the integer quotient. *)
Lemma scaled_minor_power_of_two (M l s k : Z) :
  0 < M → 0 < k → l = M * 2 ^ k → 0 < s → s ≤ l → l ≤ INT_MAX →
  scaled_minor M l s = Ok (s / 2 ^ k).
Proof.
  intros HM Hk Hl Hs Hsl Hmax. unfold INT_MAX in Hmax.
  assert (HK : 2 ^ 1 ≤ 2 ^ k) by (apply Z.pow_le_mono_r; lia).
  change (2 ^ 1) with 2 in HK. set (K := 2 ^ k) in *.
  assert (H31 : 2 ^ 31 = 2147483648) by reflexivity. rewrite H31 in Hmax.
  assert (H52 : 2 ^ 52 = 4503599627370496) by reflexivity.
  assert (H53 : 2 ^ 53 = 9007199254740992) by reflexivity.
  assert (H1020 : 2 ^ 31 ≤ 2 ^ 1020) by (apply Z.pow_le_mono_r; lia).
  rewrite H31 in H1020.
  unfold scaled_minor, true_div, round_nearest.
  destruct (Z.eqb_spec l 0) as [|_]; [lia|].
  rewrite Z.sgn_pos, Z.mul_1_r, Z.abs_eq by lia.
  replace (M ?= 0) with Gt by (symmetry; apply Z.compare_gt_iff; lia).
  assert (Hlp : 0 < l) by nia.
  destruct (fl_pos_dyadic M l 1 k) as (m1 & U1 & -> & HU1 & E1);
    [lia | lia | nia | nia | lia | lia | fold K; lia |].
  cbn [overflow_check mbind result_bind]. unfold float_mul_int.
  destruct (float_of_int_exact s) as (U2 & -> & HU2); [lia|].
  cbn [mbind result_bind]. unfold float_mul, round_nearest. cbn [fnum fden].
  assert (Hm1 : m1 * K = U1) by nia.
  assert (Hm1p : 0 < m1) by nia.
  assert (Ha : 0 < m1 * (s * U2)) by nia.
  replace (m1 * (s * U2) ?= 0) with Gt by (symmetry; apply Z.compare_gt_iff; lia).
  destruct (fl_pos_dyadic (m1 * (s * U2)) (U1 * U2) s k)
    as (m3 & U3 & -> & HU3 & E3).
  - done.
  - nia.
  - rewrite H52, <- Hm1.
    replace (4503599627370496 * (m1 * K * U2))
      with (m1 * U2 * (4503599627370496 * K)) by ring.
    replace (m1 * (s * U2)) with (m1 * U2 * s) by ring.
    apply Z.mul_lt_mono_pos_l; nia.
  - rewrite <- Hm1.
    transitivity (2147483648 * (m1 * (s * U2))); [|nia].
    replace (m1 * K * U2) with (m1 * U2 * K) by ring.
    replace (2147483648 * (m1 * (s * U2))) with (m1 * U2 * (2147483648 * s)) by ring.
    apply Z.mul_le_mono_nonneg_l; nia.
  - lia.
  - lia.
  - fold K. rewrite <- Hm1. ring.
  - cbn [overflow_check mbind result_bind]. f_equal.
    unfold int_of_float. cbn [fnum fden].
    assert (E : m3 * K = s * U3).
    { rewrite <- Hm1 in E3.
      apply (Z.mul_cancel_r _ _ (m1 * U2)); [nia|]. 
      transitivity (m3 * (m1 * K * U2)); [ring|]. rewrite E3. ring. }
    assert (0 ≤ m3) by nia.
    rewrite Z.quot_div_nonneg by lia.
    pose proof (Z.div_mod s K ltac:(lia)) as Hdm.
    pose proof (Z.mod_pos_bound s K ltac:(lia)) as Hr.
    symmetry. apply (Z.div_unique_pos m3 U3 (s / K) (m3 - s / K * U3)); [|lia].
    split.
    + apply Z.le_0_sub. apply (Z.mul_le_mono_pos_r _ _ K); [lia|]. nia.
    + assert (m3 * K < (s / K + 1) * U3 * K); [nia|nia].
Qed.


(** X1.  For a host image whose larger side is the bound times a power
    of two (2048 or 4096 against 512, say), the script's floating-point
    computation is exact: the image is scaled to the stated size, the
    larger side to [M] and the smaller to [max(1, M * smaller / larger)]. *)
Theorem resize_image_power_of_two (img : Image) (w h M k : Z) :
  img_size img = (w, h) → 0 < w ≤ INT_MAX → 0 < h ≤ INT_MAX → 0 < M → 0 < k →
  Z.max w h = M * 2 ^ k → img_has_data img = true →
  resize_image img M
  = Ok (true, mkImage (img_name img) (stated_new_size w h M) true) ∧
  stated_new_size w h M
  = if h <=? w then (M, Z.max 1 (h / 2 ^ k)) else (Z.max 1 (w / 2 ^ k), M).
Proof.
  intros Hsz Hw Hh HM Hk Hmax Hd.
  assert (HK : 2 ^ 1 ≤ 2 ^ k) by (apply Z.pow_le_mono_r; lia).
  change (2 ^ 1) with 2 in HK.
  assert (Hq : ∀ s, 0 < s → Z.quot (M * s) (M * 2 ^ k) = s / 2 ^ k).
  { intros s Hs. rewrite Z.quot_div_nonneg by nia.
    apply Z.div_mul_cancel_l; lia. }
  rewrite (resize_image_acts img w h M) by (done || nia).
  unfold new_size, stated_new_size.
  destruct (Z.leb_spec h w) as [Hhw|Hwh].
  - rewrite Z.max_l in Hmax by lia.
    rewrite (scaled_minor_power_of_two M w h k) by lia.
    cbn [mbind result_bind]. unfold scale. rewrite Hd. cbn [mbind result_bind].
    rewrite Hmax, Hq by lia. done.
  - rewrite Z.max_r in Hmax by lia.
    rewrite (scaled_minor_power_of_two M h w k) by lia.
    cbn [mbind result_bind]. unfold scale. rewrite Hd. cbn [mbind result_bind].
    rewrite Hmax, Hq by lia. done.
Qed.


(** X3.  On a host image and a positive bound the only exception
    [resize_image] lets out is the host's, from [img.scale] on an image
    without pixel data that has a side above the bound: the division and
    the conversion to [int] never raise. *)
Theorem resize_image_raises_iff (img : Image) (M : Z) (e : exn) :
  (img_size img).1 ≤ INT_MAX → (img_size img).2 ≤ INT_MAX → 0 < M →
  resize_image img M = Raise e ↔
  e = RuntimeError ∧ img_has_data img = false ∧
  0 < (img_size img).1 ∧ 0 < (img_size img).2 ∧
  (M < (img_size img).1 ∨ M < (img_size img).2).
Proof.
  intros Hw Hh HM. destruct (img_size img) as [w h] eqn:Hsz. cbn [fst snd] in *.
  split.
  - intros Hr.
    assert (Hpos : 0 < w ∧ 0 < h ∧ (M < w ∨ M < h)).
    { unfold resize_image in Hr. rewrite Hsz in Hr.
      destruct (Z.leb_spec w 0); [done|]. destruct (Z.leb_spec h 0); [done|].
      cbn [orb] in Hr.
      destruct (Z.leb_spec w M), (Z.leb_spec h M); cbn [andb] in Hr;
        (done || lia). }
    destruct Hpos as (Hw0 & Hh0 & Hex).
    rewrite (resize_image_acts img w h M) in Hr by done.
    destruct (new_size_spec w h M) as (nw & nh & Hns & _); [lia..|].
    rewrite Hns in Hr. cbn [mbind result_bind] in Hr. unfold scale in Hr.
    destruct (img_has_data img); cbn [mbind result_bind] in Hr; [done|].
    injection Hr as <-. done.
  - intros (-> & Hd & Hw0 & Hh0 & Hex).
    rewrite (resize_image_acts img w h M) by done.
    destruct (new_size_spec w h M) as (nw & nh & -> & _); [lia..|].
    cbn [mbind result_bind]. unfold scale. rewrite Hd. done.
Qed.

(** X4.  Over all integer sizes and bounds, [resize_image] returns "not
    resized" exactly when a side is not positive or both sides are within
    the bound, and the image is then as it was; an invalid size is never
    resized, whatever the bound. *)
Theorem resize_image_not_resized_iff (img : Image) (M : Z) :
  ((∃ img', resize_image img M = Ok (false, img')) ↔
   (img_size img).1 ≤ 0 ∨ (img_size img).2 ≤ 0 ∨
   ((img_size img).1 ≤ M ∧ (img_size img).2 ≤ M)) ∧
  (∀ img', resize_image img M = Ok (false, img') → img' = img).
Proof.
  unfold resize_image. destruct (img_size img) as [w h]. cbn [fst snd].
  destruct (Z.leb_spec w 0); [|destruct (Z.leb_spec h 0)]; cbn [orb].
  1,2: split; [split; [lia|eauto]|congruence].
  destruct (Z.leb_spec w M), (Z.leb_spec h M); cbn [andb].
  1: split; [split; [lia|eauto]|congruence].
  all: destruct (new_size w h M) as [[nw nh]|e]; cbn [mbind result_bind].
  all: try (destruct (scale img nw nh); cbn [mbind result_bind]).
  all: split; [split; [intros [? ?]; done|lia]|done].
Qed.

(** ** parse_cli_args *)

Lemma after_separator_none (argv : list string) :
  "--" ∉ argv → after_separator argv = None.
Proof.
  induction argv as [|token argv IH]; intros Hnin; cbn [after_separator]; [done|].
  apply not_elem_of_cons in Hnin as [Hne Hnin].
  destruct (String.eqb_spec token "--") as [->|_]; [done|]. by apply IH.
Qed.

Lemma after_separator_suffix (argv tail : list string) :
  after_separator argv = Some tail →
  ∃ pre, ("--" ∉ pre) ∧ argv = pre ++ "--" :: tail.
Proof.
  induction argv as [|token argv IH]; cbn [after_separator]; [done|].
  destruct (String.eqb_spec token "--") as [->|Hne].
  - intros [= <-]. exists []. split; [apply not_elem_of_nil|done].
  - intros Htail. destruct (IH Htail) as (pre & Hpre & ->).
    exists (token :: pre). split; [|done].
    apply not_elem_of_cons. split; [congruence|done].
Qed.

(** Induction along the [while] loop: it ends at the end of [tail], it
    raises on a flag that is the last token, it takes a flag together
    with the next token, and it passes over any other token. *)
Lemma parse_tail_ind
    (P : list string → gmap string string → result (gmap string string) → Prop) :
  (∀ args, P [] args (Ok args)) →
  (∀ token args, is_flag token = true →
     P [token] args (Raise (ValueError ("Missing value for " +:+ token)))) →
  (∀ token value rest args, is_flag token = true →
     P rest (<[token := value]> args) (parse_tail rest (<[token := value]> args)) →
     P (token :: value :: rest) args (parse_tail rest (<[token := value]> args))) →
  (∀ token rest args, is_flag token = false →
     P rest args (parse_tail rest args) →
     P (token :: rest) args (parse_tail rest args)) →
  ∀ tail args, P tail args (parse_tail tail args).
Proof.
  intros Hend Hmissing Hflag Hother tail.
  assert (H : ∀ n tail, (length tail ≤ n)%nat →
                        ∀ args, P tail args (parse_tail tail args)).
  { clear tail. induction n as [|n IH]; intros [|token rest] Hlen args; cbn in Hlen.
    - apply Hend.
    - lia.
    - apply Hend.
    - cbn [parse_tail]. destruct (is_flag token) eqn:Hf.
      + destruct rest as [|value rest]; [by apply Hmissing|].
        apply Hflag; [done|]. apply IH. cbn in Hlen. lia.
      + apply Hother; [done|]. apply IH. lia. }
  by apply (H (length tail)).
Qed.

(** The entries of the dictionary after the loop: those it started
    with, and flags with the token that follows them. *)
Lemma parse_tail_lookup (tail : list string) (args cli : gmap string string)
    (k v : string) :
  parse_tail tail args = Ok cli → cli !! k = Some v →
  args !! k = Some v ∨
  (is_flag k = true ∧ ∃ pre post, tail = pre ++ k :: v :: post).
Proof.
  revert cli. pattern tail, args, (parse_tail tail args).
  apply parse_tail_ind; clear tail args.
  - intros args cli [= <-] Hk. by left.
  - done.
  - intros token value rest args Hf IH cli Hcli Hk.
    destruct (IH cli Hcli Hk) as [Hin|(Hfk & pre & post & ->)].
    + destruct (decide (token = k)) as [->|Hne].
      * rewrite lookup_insert_eq in Hin. injection Hin as ->.
        right. split; [done|]. by exists [], rest.
      * rewrite lookup_insert_ne in Hin by done. by left.
    + right. split; [done|]. by exists (token :: value :: pre), post.
  - intros token rest args Hf IH cli Hcli Hk.
    destruct (IH cli Hcli Hk) as [Hin|(Hfk & pre & post & ->)]; [by left|].
    right. split; [done|]. by exists (token :: pre), post.
Qed.

(** The loop raises only on a flag that is the last token. *)
Lemma parse_tail_raises (tail : list string) (args : gmap string string) (e : exn) :
  parse_tail tail args = Raise e →
  ∃ token, is_flag token = true ∧ last tail = Some token ∧
           e = ValueError ("Missing value for " +:+ token).
Proof.
  pattern tail, args, (parse_tail tail args).
  apply parse_tail_ind; clear tail args.
  - done.
  - intros token args Hf [= <-]. by exists token.
  - intros token value rest args Hf IH Hr.
    destruct (IH Hr) as (tok & Hft & Hlast & ->). exists tok.
    split; [done|]. split; [|done].
    destruct rest as [|x rest]; [done|]. by rewrite !last_cons_cons.
  - intros token rest args Hf IH Hr.
    destruct (IH Hr) as (tok & Hft & Hlast & ->). exists tok.
    split; [done|]. split; [|done].
    destruct rest as [|x rest]; [done|]. by rewrite last_cons_cons.
Qed.

(** Tokens that are no flags are passed over. *)
Lemma parse_tail_junk (junk tail : list string) (args : gmap string string) :
  Forall (λ token, is_flag token = false) junk →
  parse_tail (junk ++ tail) args = parse_tail tail args.
Proof.
  induction 1 as [|token junk Hf _ IH]; [done|].
  cbn [app]. destruct (junk ++ tail) as [|x rest] eqn:Heq.
  - cbn [parse_tail]. by rewrite Hf.
  - cbn [parse_tail]. by rewrite Hf.
Qed.

(** Flags with their values, one after the other. *)
Lemma parse_tail_pairs (pairs : list (string * string)) (args : gmap string string) :
  Forall (λ kv, is_flag kv.1 = true) pairs →
  parse_tail (flat_map (λ kv, [kv.1; kv.2]) pairs) args
  = Ok (foldl (λ m kv, <[kv.1 := kv.2]> m) args pairs).
Proof.
  intros Hflags. revert args.
  induction Hflags as [|[k v] pairs Hf _ IH]; intros args; [done|].
  cbn [flat_map app fst snd foldl parse_tail]. cbn [fst] in Hf.
  rewrite Hf. apply IH.
Qed.

Lemma is_flag_cases (token : string) :
  is_flag token = true →
  token = "--input" ∨ token = "--output" ∨ token = "--max_size".
Proof.
  unfold is_flag. intros Hf.
  destruct (String.eqb_spec token "--input"); [by left|].
  destruct (String.eqb_spec token "--output"); [by right; left|].
  destruct (String.eqb_spec token "--max_size"); [by right; right|done].
Qed.

(** X5.  Every entry of the dictionary [parse_cli_args] returns has one
    of the three flags as its key, and as its value the token that
    follows an occurrence of that flag after the first ["--"]. *)
Theorem parse_cli_args_entries (argv : list string) (cli : gmap string string)
    (k v : string) :
  parse_cli_args argv = Ok cli → cli !! k = Some v →
  (k = "--input" ∨ k = "--output" ∨ k = "--max_size") ∧
  ∃ pre mid post,
    ("--" ∉ pre) ∧ argv = pre ++ "--" :: mid ++ k :: v :: post.
Proof.
  unfold parse_cli_args. intros Hp Hk.
  destruct (after_separator argv) as [tail|] eqn:Hsep.
  - destruct (after_separator_suffix _ _ Hsep) as (pre & Hpre & ->).
    destruct (parse_tail_lookup _ _ _ _ _ Hp Hk) as [Hemp|(Hf & mid & post & ->)].
    { by rewrite lookup_empty in Hemp. }
    split; [by apply is_flag_cases|]. by exists pre, mid, post.
  - injection Hp as <-. by rewrite lookup_empty in Hk.
Qed.

(** X6.  [parse_cli_args] raises only when the last token of the command
    line is one of the three flags, left without a value; the exception
    is the [ValueError] that names that flag. *)
Theorem parse_cli_args_raises (argv : list string) (e : exn) :
  parse_cli_args argv = Raise e →
  ∃ token, (token = "--input" ∨ token = "--output" ∨ token = "--max_size") ∧
           last argv = Some token ∧
           e = ValueError ("Missing value for " +:+ token).
Proof.
  unfold parse_cli_args. intros Hp.
  destruct (after_separator argv) as [tail|] eqn:Hsep; [|done].
  destruct (after_separator_suffix _ _ Hsep) as (pre & _ & ->).
  destruct (parse_tail_raises _ _ _ Hp) as (token & Hf & Hlast & ->).
  exists token. split; [by apply is_flag_cases|]. split; [|done].
  destruct tail as [|x tail]; [done|].
  rewrite last_app. change ("--" :: x :: tail) with (["--"] ++ x :: tail).
  rewrite last_app. by rewrite Hlast.
Qed.

(** X7.  A command line of flags, each with a value, after the ["--"]
    gives the dictionary of those pairs, a later value for a flag
    replacing an earlier one.  The value is whatever token follows the
    flag, be it the name of a flag or ["--"]. *)
Theorem parse_cli_args_pairs (pre : list string) (pairs : list (string * string)) :
  "--" ∉ pre → Forall (λ kv, is_flag kv.1 = true) pairs →
  parse_cli_args (pre ++ "--" :: flat_map (λ kv, [kv.1; kv.2]) pairs)
  = Ok (list_to_map (reverse pairs)).
Proof.
  intros Hpre Hflags. unfold parse_cli_args.
  rewrite after_separator_app by done. rewrite parse_tail_pairs by done.
  f_equal. clear Hpre.
  induction pairs as [|[k v] pairs IH] using rev_ind; [done|].
  apply Forall_app in Hflags as [Hflags _].
  rewrite foldl_app, reverse_app. cbn [foldl reverse app list_to_map foldr fst snd].
  by rewrite IH.
Qed.

(** X8.  Only what follows the first ["--"] is read, and tokens there
    that are no flags are passed over: without a ["--"] the dictionary
    is empty, whatever flags the command line holds, and tokens that are
    no flags (a second ["--"] among them) right after the separator
    change nothing. *)
Theorem parse_cli_args_ignores (pre junk tail : list string) :
  "--" ∉ pre → Forall (λ token, is_flag token = false) junk →
  parse_cli_args pre = Ok ∅ ∧
  parse_cli_args (pre ++ "--" :: junk ++ tail) = parse_cli_args ("--" :: tail).
Proof.
  intros Hpre Hjunk. unfold parse_cli_args.
  rewrite after_separator_none by done. split; [done|].
  rewrite after_separator_app by done. cbn [after_separator String.eqb].
  by apply parse_tail_junk.
Qed.

(** ** The resize loop, line by line *)

Lemma resize_step_line (ms : Z) (st : Resizing) (r : img_ref) :
  rs_log (resize_step ms st r) = rs_log st ++ [image_line ms (rs_images st) r] ∧
  rs_count (resize_step ms st r)
  = (rs_count st
     + if is_resized_line (image_line ms (rs_images st) r) then 1 else 0)%nat.
Proof.
  unfold resize_step, image_line, resize_effect.
  destruct (rs_images st !! r) as [img|]; [|cbn; split; [done|lia]].
  destruct (img_size img) as [w h]. cbn [fst snd].
  destruct (resize_image img ms) as [[[|] img']|e]; cbn; split; (done || lia).
Qed.

(** The lines of the loop are the lines of the images, in the order of
    the iteration, and the counter counts the resizes among them. *)
Lemma resize_loop_lines (ms : Z) (images : gmap img_ref Image)
    (order : list img_ref) (st : Resizing) :
  NoDup order → (∀ r, r ∈ order → rs_images st !! r = images !! r) →
  rs_log (foldl (resize_step ms) st order)
  = rs_log st ++ (image_line ms images <$> order) ∧
  rs_count (foldl (resize_step ms) st order)
  = (rs_count st
     + length (filter is_resized_line (image_line ms images <$> order)))%nat.
Proof.
  revert st. induction order as [|r order IH]; intros st Hnd Hsame; cbn [foldl].
  - cbn. rewrite app_nil_r. split; [done|lia].
  - apply NoDup_cons in Hnd as [Hr Hnd].
    destruct (resize_step_line ms st r) as [Hlog Hcount].
    assert (Hline : image_line ms (rs_images st) r = image_line ms images r).
    { unfold image_line. rewrite Hsame; [done|]. by left. }
    rewrite Hline in Hlog, Hcount.
    destruct (IH (resize_step ms st r) Hnd) as [Hlog' Hcount'].
    { intros r' Hin. rewrite resize_step_frame by (by intros ->).
      apply Hsame. by right. }
    rewrite Hlog', Hcount', Hlog, Hcount, fmap_cons, filter_cons, <- app_assoc.
    split; [done|].
    destruct (is_resized_line (image_line ms images r)); case_decide; cbn in *;
      (done || lia).
Qed.

Lemma resize_images_lines (ms : Z) (order : list img_ref)
    (images : gmap img_ref Image) :
  NoDup order →
  rs_log (resize_images ms order images) = image_line ms images <$> order ∧
  rs_count (resize_images ms order images)
  = length (filter is_resized_line (rs_log (resize_images ms order images))).
Proof.
  intros Hnd. unfold resize_images.
  destruct (resize_loop_lines ms images order (mkResizing images 0 [] []) Hnd)
    as [Hlog Hcount]; [done|].
  cbn [rs_log rs_count app] in Hlog, Hcount. by rewrite Hcount, Hlog.
Qed.

(** The loop leaves the set of datablocks as it is. *)
Lemma resize_loop_dom (ms : Z) (order : list img_ref) (st : Resizing) :
  dom (rs_images (foldl (resize_step ms) st order)) = dom (rs_images st).
Proof.
  revert st. induction order as [|r order IH]; intros st; cbn [foldl]; [done|].
  rewrite IH. unfold resize_step.
  destruct (rs_images st !! r) as [img|] eqn:Hr; [|done].
  destruct (img_size img) as [w h].
  destruct (resize_image img ms) as [[[|] img']|e]; cbn [rs_images]; [| |done].
  all: rewrite dom_insert_L; apply elem_of_dom_2 in Hr.
  all: apply subseteq_union_1_L; by apply singleton_subseteq_l.
Qed.

(** X9.  The iteration order of the working set, which Python leaves
    open, is immaterial: two orders of the same images leave the same
    datablocks and the same count, and print the same lines, in the order
    of the iteration. *)
Theorem resize_order_is_immaterial (ms : Z) (order1 order2 : list img_ref)
    (images : gmap img_ref Image) :
  NoDup order1 → order1 ≡ₚ order2 →
  rs_images (resize_images ms order1 images)
  = rs_images (resize_images ms order2 images) ∧
  rs_count (resize_images ms order1 images)
  = rs_count (resize_images ms order2 images) ∧
  rs_log (resize_images ms order1 images)
  ≡ₚ rs_log (resize_images ms order2 images).
Proof.
  intros Hnd Hperm.
  assert (Hnd2 : NoDup order2) by (by rewrite <- Hperm).
  destruct (resize_images_lines ms order1 images Hnd) as [Hl1 Hc1].
  destruct (resize_images_lines ms order2 images Hnd2) as [Hl2 Hc2].
  assert (Hlog : rs_log (resize_images ms order1 images)
                 ≡ₚ rs_log (resize_images ms order2 images)).
  { rewrite Hl1, Hl2. by apply fmap_Permutation. }
  split; [by apply resize_images_order|]. split; [|done].
  rewrite Hc1, Hc2. by rewrite Hlog.
Qed.

(** ** The order of paths and the pattern [*.glb] *)

Lemma string_leb_trans (a b c : string) :
  String.leb a b = true → String.leb b c = true → String.leb a c = true.
Proof.
  unfold String.leb. intros Hab Hbc.
  destruct (String.compare a b) eqn:Eab; [| |done].
  - apply String.compare_eq_iff in Eab as ->. done.
  - destruct (String.compare b c) eqn:Ebc; [| |done].
    + apply String.compare_eq_iff in Ebc as <-. by rewrite Eab.
    + assert (String.compare a c = Lt) as ->; [|done].
      apply OrderedTypeEx.String_as_OT.cmp_lt.
      eapply OrderedTypeEx.String_as_OT.lt_trans;
        by apply OrderedTypeEx.String_as_OT.cmp_lt.
Qed.

Lemma path_leb_total (p q : Path) : path_leb p q = true ∨ path_leb q p = true.
Proof.
  revert q. induction p as [|a p IH]; intros [|b q]; cbn [path_leb]; eauto.
  destruct (String.eqb_spec a b) as [->|Hne].
  - rewrite String.eqb_refl. apply IH.
  - destruct (String.eqb_spec b a) as [->|_]; [done|]. apply String.leb_total.
Qed.

Lemma path_leb_trans (p q r : Path) :
  path_leb p q = true → path_leb q r = true → path_leb p r = true.
Proof.
  revert q r. induction p as [|a p IH]; intros [|b q] [|c r]; cbn [path_leb];
    try done.
  destruct (String.eqb_spec a b) as [->|Hab].
  - destruct (String.eqb_spec b c) as [->|Hbc]; [apply IH|done].
  - destruct (String.eqb_spec b c) as [->|Hbc].
    + destruct (String.eqb_spec a c) as [->|_]; done.
    + intros H1 H2. destruct (String.eqb_spec a c) as [->|_].
      * exfalso. apply Hab. by apply String.leb_antisym.
      * by apply (string_leb_trans a b c).
Qed.

#[local] Instance path_le_total : Total path_le.
Proof. intros p q. apply path_leb_total. Qed.

#[local] Instance path_le_trans : Transitive path_le.
Proof. intros p q r. apply path_leb_trans. Qed.

Lemma path_leb_antisym (p q : Path) :
  path_leb p q = true → path_leb q p = true → p = q.
Proof.
  revert q. induction p as [|a p IH]; intros [|b q]; cbn [path_leb]; try done.
  destruct (String.eqb_spec a b) as [->|Hab].
  - rewrite String.eqb_refl. intros H1 H2. f_equal. by apply IH.
  - destruct (String.eqb_spec b a) as [->|_]; [done|].
    intros H1 H2. exfalso. apply Hab. by apply String.leb_antisym.
Qed.

(** Names that match [*.glb]. *)
Lemma substring_all (s : string) : String.substring 0 (String.length s) s = s.
Proof. induction s as [|c s IH]; cbn; [done|]. by rewrite IH. Qed.

Lemma substring_append (s t : string) :
  String.substring (String.length s) (String.length t) (s +:+ t) = t.
Proof. induction s as [|c s IH]; cbn; [apply substring_all|exact IH]. Qed.

Lemma string_split_at (n : nat) (s : string) :
  (n ≤ String.length s)%nat →
  s = String.substring 0 n s +:+ String.substring n (String.length s - n) s.
Proof.
  revert s. induction n as [|n IH]; intros s Hn.
  - rewrite Nat.sub_0_r, substring_all. by destruct s.
  - destruct s as [|c s]; cbn in Hn; [lia|]. cbn.
    change (String c s
            = String c (String.substring 0 n s
                        +:+ String.substring n (String.length s - n) s)).
    f_equal. apply IH. lia.
Qed.

Lemma is_glb_name_iff (name : string) :
  is_glb_name name = true ↔ ∃ stem, name = stem +:+ ".glb".
Proof.
  unfold is_glb_name. split.
  - intros [Hlen Heq]%andb_prop.
    apply Nat.leb_le in Hlen. apply String.eqb_eq in Heq.
    exists (String.substring 0 (String.length name - 4) name).
    pose proof (string_split_at (String.length name - 4) name ltac:(lia)) as Hsplit.
    replace (String.length name - (String.length name - 4))%nat with 4%nat
      in Hsplit by lia.
    by rewrite Heq in Hsplit.
  - intros [stem ->].
    assert (Hlen : String.length (stem +:+ ".glb") = (String.length stem + 4)%nat).
    { clear. induction stem as [|c s IH]; [done|].
      change (S (String.length (s +:+ ".glb")) = S (String.length s + 4)).
      by rewrite IH. }
    rewrite Hlen. apply andb_true_intro. split; [apply Nat.leb_le; lia|].
    replace (String.length stem + 4 - 4)%nat with (String.length stem) by lia.
    apply String.eqb_eq. apply (substring_append stem ".glb").
Qed.

Section BatchProperties.

Context {FileData : Type}.
Variable import_gltf : FileData → result Document.
Variable export_gltf : Document → result FileData.
Variable py_int : string → option Z.
Variable resolve_path : string → Path.

Abbreviation import_file := (import_file import_gltf).
Abbreviation process_model := (process_model import_gltf export_gltf).
Abbreviation batch_step := (batch_step import_gltf export_gltf).
Abbreviation batch_loop := (batch_loop import_gltf export_gltf).
Abbreviation run_batch := (run_batch import_gltf export_gltf).
Abbreviation main := (main import_gltf export_gltf py_int resolve_path).

(** ** process_model, step by step *)

(** The ways a pass can go: the import raises; or the images are
    resized and then [mkdir] raises, the export raises, or the file is
    written. *)
Lemma process_model_inv (p out : Path) (ms : Z) (w : World FileData) :
  let r := process_model p out ms w in
  (∃ e, import_file (w_fs w) p = Raise e ∧
        r = (Raise e, mkWorld (w_fs w) empty_document (w_log w ++ [LogProcessing p]))) ∨
  (∃ doc, import_file (w_fs w) p = Ok doc ∧
     let st := resize_images ms (elements (images_to_resize doc)) (doc_images doc) in
     let doc' := mkDocument (doc_materials doc) (rs_images st) in
     let lines := w_log w ++ [LogProcessing p] ++ rs_log st
                  ++ [LogTexturesResized (rs_count st)] in
     (∃ e, mkdir_parents (parent out) (w_fs w) = Raise e ∧
           r = (Raise e, mkWorld (w_fs w) doc' lines)) ∨
     (∃ fs, mkdir_parents (parent out) (w_fs w) = Ok fs ∧
        ((∃ e, (data ← export_gltf doc'; write_file fs out data) = Raise e ∧
               r = (Raise e, mkWorld fs doc' lines)) ∨
         (∃ data, export_gltf doc' = Ok data ∧
                  write_file fs out data = Ok (<[out := File data]> fs) ∧
                  r = (Ok (), mkWorld (<[out := File data]> fs) doc'
                                      (lines ++ [LogExported out])))))).
Proof.
  intros r. subst r. unfold process_model. cbn [log w_fs w_doc w_log].
  destruct (import_file (w_fs w) p) as [doc|e]; [right|left; eauto].
  exists doc. split; [done|]. cbv zeta.
  set (st := resize_images ms (elements (images_to_resize doc)) (doc_images doc)).
  set (doc' := mkDocument (doc_materials doc) (rs_images st)).
  rewrite <- !app_assoc.
  destruct (mkdir_parents (parent out) (w_fs w)) as [fs|e]; [right|left; eauto].
  exists fs. split; [done|].
  destruct (export_gltf doc') as [data|e] eqn:Hexp; cbn [mbind result_bind].
  - unfold write_file. destruct (fs !! out) as [[d|]|] eqn:Hout.
    + right. exists data. split; [done|]. split; [done|].
      unfold log. cbn [w_fs w_doc w_log]. by rewrite <- !app_assoc.
    + left. eauto.
    + right. exists data. split; [done|]. split; [done|].
      unfold log. cbn [w_fs w_doc w_log]. by rewrite <- !app_assoc.
  - left. eauto.
Qed.

(** What [mkdir] with [parents=True, exist_ok=True] leaves as it was:
    every entry; it makes no file, and only directories on the way to
    [p]. *)
Lemma mkdir_parents_keeps (p : Path) (fs fs' : gmap Path (Entry FileData)) :
  mkdir_parents p fs = Ok fs' →
  fs ⊆ fs' ∧ (∀ q, is_file fs' q = is_file fs q) ∧
  (∀ q, is_Some (fs' !! q) → is_Some (fs !! q) ∨ q `prefix_of` p).
Proof.
  intros Hmk. destruct (mkdir_parents_ok p fs fs' Hmk) as [Hlook Hnofile].
  split; [|split].
  - apply map_subseteq_spec. intros q entry Hq. rewrite Hlook.
    case_decide as Hpre; [|done].
    specialize (Hnofile q Hpre). unfold is_file in Hnofile. rewrite Hq in Hnofile.
    by destruct entry.
  - intros q. unfold is_file at 1. rewrite Hlook.
    case_decide as Hpre; [|done]. by rewrite Hnofile.
  - intros q. rewrite Hlook. case_decide; eauto.
Qed.

(** X10.  The lines of a pass whose import succeeded: the file's
    "Processing" line; one line for each image of the working set, the
    image's "Resized", "Kept" or "Warning" line; the count of the images
    resized, which is the number of "Resized" lines; and the "Exported"
    line exactly when the pass returns. *)
Theorem process_model_log (p out : Path) (ms : Z) (w : World FileData)
    (doc : Document) :
  import_file (w_fs w) p = Ok doc →
  let r := process_model p out ms w in
  ∃ lines,
    lines ≡ₚ image_line ms (doc_images doc) <$> elements (images_to_resize doc) ∧
    w_log r.2
    = w_log w ++ [LogProcessing p] ++ lines
      ++ [LogTexturesResized (length (filter is_resized_line lines))]
      ++ (if r.1 is Ok _ then [LogExported out] else []).
Proof.
  intros Himp r.
  destruct (resize_images_lines ms (elements (images_to_resize doc)) (doc_images doc))
    as [Hlines Hcount]; [apply NoDup_elements|].
  exists (rs_log (resize_images ms (elements (images_to_resize doc)) (doc_images doc))).
  split; [by rewrite Hlines|]. rewrite <- Hcount.
  destruct (process_model_inv p out ms w) as [(e & He & _)|(doc0 & Hdoc & Hcases)].
  { congruence. }
  assert (doc0 = doc) as -> by congruence. cbv zeta in Hcases. fold r in Hcases.
  destruct Hcases as [(e & _ & ->)|(fs & _ & [(e & _ & ->)|(data & _ & _ & ->)])];
    cbn [fst snd w_log]; by rewrite <- ?app_assoc, ?app_nil_r.
Qed.

(** X11.  After a pass, every image of the working set that is a host
    image with pixel data fits the bound: both sides are at least 1 and
    at most [max_size], and it has kept its name. *)
Theorem process_model_fits_bound (p out : Path) (ms : Z) (w : World FileData)
    (doc : Document) (i : img_ref) (img : Image) :
  import_file (w_fs w) p = Ok doc → 0 < ms →
  i ∈ images_to_resize doc → doc_images doc !! i = Some img →
  0 < (img_size img).1 ≤ INT_MAX → 0 < (img_size img).2 ≤ INT_MAX →
  img_has_data img = true →
  ∃ img', doc_images (w_doc (process_model p out ms w).2) !! i = Some img' ∧
          img_name img' = img_name img ∧
          1 ≤ (img_size img').1 ≤ ms ∧ 1 ≤ (img_size img').2 ≤ ms.
Proof.
  intros Himp Hms Hin Himg Hw Hh Hd.
  destruct (process_model_imported import_gltf export_gltf p out ms w doc Himp)
    as (Hdoc & _). cbv zeta in Hdoc. rewrite Hdoc. cbn [doc_images].
  rewrite resize_images_lookup by apply NoDup_elements.
  rewrite decide_True by (by apply elem_of_elements).
  rewrite Himg. cbn [fmap option_fmap option_map]. eexists. split; [done|].
  unfold resize_effect. destruct (img_size img) as [wd ht] eqn:Hsz.
  cbn [fst snd] in *.
  destruct (Z_le_gt_dec wd ms) as [Hwm|Hwm];
    [destruct (Z_le_gt_dec ht ms) as [Hhm|Hhm]|].
  - assert (Hr : resize_image img ms = Ok (false, img)).
    { unfold resize_image. rewrite Hsz.
      destruct (Z.leb_spec wd 0); [lia|]. destruct (Z.leb_spec ht 0); [lia|].
      cbn [orb].
      destruct (Z.leb_spec wd ms), (Z.leb_spec ht ms); cbn [andb]; (done || lia). }
    rewrite Hr. cbn [fst]. rewrite Hsz. cbn [fst snd]. split; [done|lia].
  - rewrite (resize_image_acts img wd ht ms) by (done || lia).
    destruct (new_size_spec wd ht ms) as (nw & nh & -> & Hnw & Hnh & _); [lia..|].
    cbn [mbind result_bind]. unfold scale. rewrite Hd. cbn. split; [done|lia].
  - rewrite (resize_image_acts img wd ht ms) by (done || lia).
    destruct (new_size_spec wd ht ms) as (nw & nh & -> & Hnw & Hnh & _); [lia..|].
    cbn [mbind result_bind]. unfold scale. rewrite Hd. cbn. split; [done|lia].
Qed.

(** X12.  A pass that returns has imported the file at [input_path] and
    written at [output_path] the export of the document it leaves
    loaded, which has the materials and the set of images of the import;
    every other path holds what it held, or a new directory. *)
Theorem process_model_success (p out : Path) (ms : Z) (w w' : World FileData) :
  process_model p out ms w = (Ok (), w') →
  ∃ doc data,
    import_file (w_fs w) p = Ok doc ∧
    doc_materials (w_doc w') = doc_materials doc ∧
    dom (doc_images (w_doc w')) = dom (doc_images doc) ∧
    export_gltf (w_doc w') = Ok data ∧
    w_fs w' !! out = Some (File data) ∧
    (∀ q, q ≠ out → is_file (w_fs w') q = is_file (w_fs w) q) ∧
    (∀ q entry, q ≠ out → w_fs w !! q = Some entry → w_fs w' !! q = Some entry).
Proof.
  intros Hr.
  destruct (process_model_inv p out ms w) as [(e & _ & Hr')|(doc & Hdoc & Hcases)].
  { congruence. }
  cbv zeta in Hcases.
  destruct Hcases as [(e & _ & Hr')|(fs & Hmk & [(e & _ & Hr')|(data & Hexp & _ & Hr')])];
    [congruence..|].
  rewrite Hr in Hr'. injection Hr' as ->. cbn [w_fs w_doc doc_materials doc_images].
  destruct (mkdir_parents_keeps _ _ _ Hmk) as (Hsub & Hfile & _).
  exists doc, data. split; [done|]. split; [done|].
  split; [apply resize_loop_dom|]. split; [done|].
  split; [apply lookup_insert_eq|]. split.
  - intros q Hq. unfold is_file at 1. rewrite lookup_insert_ne by done. apply Hfile.
  - intros q entry Hq Hentry. rewrite lookup_insert_ne by done.
    by apply (lookup_weaken _ _ _ _ Hentry).
Qed.

(** X13.  A pass that raises writes no file: every entry there was is
    still there, no path has become a file or ceased to be one, and all
    that can be new is directories on the way to the output. *)
Theorem process_model_failure_writes_no_file (p out : Path) (ms : Z)
    (w w' : World FileData) (e : exn) :
  process_model p out ms w = (Raise e, w') →
  w_fs w ⊆ w_fs w' ∧
  (∀ q, is_file (w_fs w') q = is_file (w_fs w) q) ∧
  (∀ q, is_Some (w_fs w' !! q) → is_Some (w_fs w !! q) ∨ q `prefix_of` parent out).
Proof.
  intros Hr.
  destruct (process_model_inv p out ms w) as [(e' & _ & Hr')|(doc & Hdoc & Hcases)].
  { rewrite Hr in Hr'. injection Hr' as _ ->. cbn [w_fs]. eauto. }
  cbv zeta in Hcases.
  destruct Hcases as [(e' & _ & Hr')|(fs & Hmk & [(e' & _ & Hr')|(data & _ & _ & Hr')])];
    rewrite Hr in Hr'; [| |done].
  - injection Hr' as _ ->. cbn [w_fs]. eauto.
  - injection Hr' as _ ->. cbn [w_fs]. by apply mkdir_parents_keeps.
Qed.

(** ** main, step by step *)

(** The ways a run with a configuration can go. *)
Lemma run_batch_inv (cfg : Config) (w : World FileData) :
  let r := run_batch cfg w in
  (∃ e, mkdir_parents (output_dir cfg) (w_fs w) = Raise e ∧ r = (Fatal e, w)) ∨
  (∃ fs, mkdir_parents (output_dir cfg) (w_fs w) = Ok fs ∧
     let w1 := mkWorld fs (w_doc w) (w_log w) in
     let glb_files := rglob_sorted fs (input_dir cfg) in
     (fs !! input_dir cfg = None ∧
      r = (Fatal (FileNotFoundError (input_dir cfg)), w1)) ∨
     (is_Some (fs !! input_dir cfg) ∧ glb_files = [] ∧
      r = (NoFiles, log (LogNoFiles (input_dir cfg)) w1)) ∨
     (is_Some (fs !! input_dir cfg) ∧ glb_files ≠ [] ∧
      let start := log (LogHeader (input_dir cfg) (output_dir cfg) (max_size cfg)
                                  (length glb_files)) w1 in
      let res := batch_loop cfg glb_files (mkCounters 0 0 0, start) in
      r = (Summary res.1,
           log (LogSummary (processed res.1) (skipped res.1) (failed res.1)) res.2))).
Proof.
  intros r. subst r. unfold run_batch.
  destruct (mkdir_parents (output_dir cfg) (w_fs w)) as [fs|e]; [right|left; eauto].
  exists fs. split; [done|]. cbv zeta.
  destruct (path_exists fs (input_dir cfg)) eqn:Hex; cbn [negb].
  - apply path_exists_true in Hex. right.
    destruct (rglob_sorted fs (input_dir cfg)) as [|g files] eqn:Hfiles.
    + left. done.
    + right. split; [done|]. split; [done|].
      by destruct (batch_loop cfg (g :: files) _) as [c w'].
  - apply path_exists_false in Hex. left. done.
Qed.

(** The files the run goes through exist and lie below the input
    directory. *)
Lemma rglob_sorted_files (fs : gmap Path (Entry FileData)) (dir : Path) :
  Forall (strictly_under dir) (rglob_sorted fs dir) ∧
  Forall (λ g, is_Some (fs !! g)) (rglob_sorted fs dir).
Proof.
  split; apply Forall_forall; intros g Hg;
    apply elem_of_rglob_sorted, elem_of_glb_set in Hg as (? & ? & ?); done.
Qed.

(** A run only adds to the file system, on the branch of the output
    directory. *)
Lemma run_batch_extends (cfg : Config) (w : World FileData) :
  extends (output_dir cfg) (w_fs w) (w_fs (run_batch cfg w).2).
Proof.
  destruct (run_batch_inv cfg w) as [(e & _ & ->)|(fs & Hmk & Hcases)].
  { apply extends_refl. }
  destruct (mkdir_parents_extends (output_dir cfg) (output_dir cfg) _ _
              ltac:(done) Hmk) as [Hext _].
  cbv zeta in Hcases.
  destruct Hcases as [(_ & ->)|[(_ & _ & ->)|(_ & _ & ->)]]; cbn [snd log w_fs];
    [done..|].
  eapply extends_trans; [exact Hext|].
  destruct (rglob_sorted_files fs (input_dir cfg)) as [Hunder Hthere].
  by destruct (batch_loop_run1 import_gltf export_gltf cfg _ (mkCounters 0 0 0)
                 (log (LogHeader (input_dir cfg) (output_dir cfg) (max_size cfg)
                                 (length (rglob_sorted fs (input_dir cfg))))
                      (mkWorld fs (w_doc w) (w_log w)))
                 Hunder Hthere) as [? _].
Qed.

(** X14.  A run never overwrites or removes anything: every file and
    directory that exists before the run is there after it, with the
    content it had.  What is new lies on the branch of the output
    directory, and every new file strictly below it. *)
Theorem main_keeps_what_exists (script_dir : Path) (argv : list string)
    (cfg : Config) (w : World FileData) :
  w_fs w ⊆ w_fs (main script_dir argv w).2 ∧
  extends (output_dir cfg) (w_fs w) (w_fs (run_batch cfg w).2).
Proof.
  split; [|apply run_batch_extends].
  unfold main. destruct (parse_cli_args argv) as [cli|e]; [|done].
  destruct (resolve_config py_int resolve_path script_dir cli) as [cfg'|e]; [|done].
  by destruct (run_batch_extends cfg' w) as [? _].
Qed.


(** X16.  The run ends with "Input directory not found" exactly when
    the output directory could be made, the input directory does not
    exist, and it is not an ancestor of the output directory (making the
    output directory would have made it).  The output directory has then
    been made all the same. *)
Theorem missing_input_dir (cfg : Config) (w : World FileData) (dir : Path) :
  ((run_batch cfg w).1 = Fatal (FileNotFoundError dir) ↔
   dir = input_dir cfg ∧ w_fs w !! input_dir cfg = None ∧
   ¬ input_dir cfg `prefix_of` output_dir cfg ∧
   ∃ fs, mkdir_parents (output_dir cfg) (w_fs w) = Ok fs) ∧
  ((run_batch cfg w).1 = Fatal (FileNotFoundError dir) →
   w_fs (run_batch cfg w).2 !! output_dir cfg = Some Dir).
Proof.
  destruct (run_batch_inv cfg w) as [(e0 & Hmk & ->)|(fs & Hmk & Hcases)];
    cbn [fst snd].
  { assert (e0 = OSError) as ->.
    { unfold mkdir_parents in Hmk. destruct (existsb _ _); congruence. }
    split; [|done]. split; [done|]. intros (_ & _ & _ & fs & Hfs). congruence. }
  destruct (mkdir_parents_ok _ _ _ Hmk) as [Hlook _].
  assert (Hin : fs !! input_dir cfg = None ↔
                w_fs w !! input_dir cfg = None ∧
                ¬ input_dir cfg `prefix_of` output_dir cfg).
  { rewrite Hlook. case_decide; [|tauto]. split; [done|]. intros [_ ?]. done. }
  assert (Hout : fs !! output_dir cfg = Some Dir).
  { rewrite Hlook. by rewrite decide_True. }
  cbv zeta in Hcases.
  destruct Hcases as [(Hno & ->)|[(Hyes & _ & ->)|(Hyes & _ & ->)]]; cbn [fst snd w_fs].
  - split; [|done]. split.
    + intros [= <-]. apply Hin in Hno as [? ?]. eauto.
    + intros (-> & _). done.
  - split; [|done]. split; [done|]. intros (_ & H1 & H2 & _).
    assert (fs !! input_dir cfg = None) as Hnone by (by apply Hin).
    rewrite Hnone in Hyes. by destruct Hyes.
  - split; [|done]. split; [done|]. intros (_ & H1 & H2 & _).
    assert (fs !! input_dir cfg = None) as Hnone by (by apply Hin).
    rewrite Hnone in Hyes. by destruct Hyes.
Qed.

(** The entries [rglob] finds, by their names. *)
Lemma elem_of_glb_set_name (fs : gmap Path (Entry FileData)) (dir g : Path) :
  g ∈ glb_set fs dir ↔
  is_Some (fs !! g) ∧ ∃ mid stem, g = dir ++ mid ++ [stem +:+ ".glb"].
Proof.
  rewrite elem_of_glb_set. unfold strictly_under. split.
  - intros (([rel ->] & Hne) & Hglb & Hthere). split; [done|].
    destruct rel as [|x rel _] using rev_ind.
    { by rewrite app_nil_r in Hne. }
    unfold matches_glb in Hglb. rewrite app_assoc, last_snoc in Hglb.
    apply is_glb_name_iff in Hglb as [stem ->]. by exists rel, stem.
  - intros (Hthere & mid & stem & ->). split; [split|split; [|done]].
    + by eexists.
    + intros Heq. rewrite <- (app_nil_r dir) in Heq at 2.
      apply app_inv_head in Heq. by destruct mid.
    + unfold matches_glb. rewrite app_assoc, last_snoc.
      apply is_glb_name_iff. by exists stem.
Qed.


(** ** The lines of a run *)

Lemma process_model_lines (p out : Path) (ms : Z) (w : World FileData) :
  let r := process_model p out ms w in
  ∃ lines, w_log r.2 = w_log w ++ LogProcessing p :: lines ∧
           (r.1 = Ok () → LogExported out ∈ lines).
Proof.
  intros r.
  destruct (process_model_inv p out ms w) as [(e & _ & Hr)|(doc & _ & Hcases)];
    fold r in Hr || fold r in Hcases.
  { rewrite Hr. cbn [fst snd w_log]. by exists []. }
  cbv zeta in Hcases.
  destruct Hcases as [(e & _ & ->)|(fs & _ & [(e & _ & ->)|(data & _ & _ & ->)])];
    cbn [fst snd w_log]; rewrite <- ?app_assoc; cbn [app];
    eexists; (split; [done|]); [done..|].
  intros _. apply elem_of_app. right. right. by left.
Qed.

Lemma reported_app (cfg : Config) (g : Path) (l1 l2 : list LogLine) :
  reported cfg g l1 ∨ reported cfg g l2 → reported cfg g (l1 ++ l2).
Proof.
  unfold reported. cbv zeta. setoid_rewrite elem_of_app.
  intros [[?|(? & [?|[e ?]])]|[?|(? & [?|[e ?]])]]; eauto 8.
Qed.

Lemma batch_step_lines (cfg : Config) (c : Counters) (w : World FileData)
    (g : Path) :
  ∃ lines, w_log (batch_step cfg (c, w) g).2 = w_log w ++ lines ∧
           reported cfg g lines.
Proof.
  unfold batch_step, reported. cbv zeta.
  destruct (path_exists (w_fs w) (out_file cfg g)).
  - cbn [snd log w_log]. rewrite <- app_assoc. eexists. split; [done|].
    left. by left.
  - destruct (process_model_lines g (out_file cfg g) (max_size cfg) w)
      as (lines & Hlog & Hok).
    destruct (process_model g (out_file cfg g) (max_size cfg) w) as [[[]|e] w1];
      cbn [fst snd log w_log] in *; rewrite Hlog, <- ?app_assoc.
    + eexists. split; [done|]. right. split; [by left|]. left.
      cbn [app]. right. apply elem_of_app. left. by apply Hok.
    + eexists. split; [done|]. right. split; [by left|]. right. exists e.
      cbn [app]. right. apply elem_of_app. right. by left.
Qed.

Lemma batch_loop_lines (cfg : Config) (glb_files : list Path)
    (acc : Counters * World FileData) :
  ∃ lines, w_log (batch_loop cfg glb_files acc).2 = w_log acc.2 ++ lines ∧
           ∀ g, g ∈ glb_files → reported cfg g lines.
Proof.
  revert acc. induction glb_files as [|g files IH]; intros [c w].
  - exists []. rewrite app_nil_r. split; [done|]. by intros g ?%elem_of_nil.
  - change (batch_loop cfg (g :: files) (c, w))
      with (batch_loop cfg files (batch_step cfg (c, w) g)).
    destruct (batch_step_lines cfg c w g) as (l1 & Hl1 & Hg).
    destruct (IH (batch_step cfg (c, w) g)) as (l2 & Hl2 & Hfiles).
    exists (l1 ++ l2). rewrite Hl2, Hl1, <- app_assoc. split; [done|].
    intros g' [->|Hin]%elem_of_cons; apply reported_app; eauto.
Qed.

(** X18.  A run that reaches its summary has reported every file it
    discovered, whatever happened to the files before it: the file's
    "Skipping" line is in the output, or its "Processing" line together
    with its "Exported" line or an "ERROR processing" line.  The last
    line is the summary. *)
Theorem every_file_is_reported (cfg : Config) (w w' : World FileData)
    (c : Counters) :
  run_batch cfg w = (Summary c, w') →
  (∃ fs, mkdir_parents (output_dir cfg) (w_fs w) = Ok fs ∧
         ∀ g, g ∈ rglob_sorted fs (input_dir cfg) → reported cfg g (w_log w')) ∧
  last (w_log w') = Some (LogSummary (processed c) (skipped c) (failed c)).
Proof.
  intros Hr.
  destruct (run_batch_inv cfg w) as [(e & _ & Hr')|(fs & Hmk & Hcases)].
  { congruence. }
  cbv zeta in Hcases. rewrite Hr in Hcases.
  destruct Hcases as [(_ & Hr')|[(_ & _ & Hr')|(_ & _ & Hr')]]; [done..|].
  injection Hr' as -> ->.
  split; [|unfold log; cbn [w_log]; apply last_snoc].
  exists fs. split; [done|]. intros g Hg.
  destruct (batch_loop_lines cfg (rglob_sorted fs (input_dir cfg))
              (mkCounters 0 0 0,
               log (LogHeader (input_dir cfg) (output_dir cfg) (max_size cfg)
                              (length (rglob_sorted fs (input_dir cfg))))
                   (mkWorld fs (w_doc w) (w_log w))))
    as (lines & Hlog & Hall).
  unfold log at 1. cbn [w_log]. rewrite Hlog.
  apply reported_app. left. apply reported_app. right. by apply Hall.
Qed.

(** X19.  Without a ["--"] on the command line nothing of it is read,
    flags included: the run takes [input] and [output] beside the script
    and the bound 512. *)
Theorem main_defaults (script_dir : Path) (argv : list string)
    (w : World FileData) :
  "--" ∉ argv →
  main script_dir argv w
  = run_batch (mkConfig (script_dir ++ ["input"]) (script_dir ++ ["output"]) 512) w.
Proof.
  intros Hsep. unfold main, parse_cli_args.
  by rewrite after_separator_none.
Qed.

(** X20.  The outputs mirror the inputs: after a run that reports no
    failure, every [.glb] entry there was below the input directory, at
    [input_dir / mid / stem.glb], has an entry at
    [output_dir / mid / stem.glb]. *)
Theorem outputs_mirror_inputs (cfg : Config) (w w' : World FileData)
    (c : Counters) (mid : Path) (stem : string) :
  run_batch cfg w = (Summary c, w') → failed c = 0%nat →
  is_Some (w_fs w !! (input_dir cfg ++ mid ++ [stem +:+ ".glb"])) →
  is_Some (w_fs w' !! (output_dir cfg ++ mid ++ [stem +:+ ".glb"])).
Proof.
  intros Hr Hfailed Hthere.
  destruct (run_batch_inv cfg w) as [(e & _ & Hr')|(fs & Hmk & Hcases)].
  { congruence. }
  cbv zeta in Hcases. rewrite Hr in Hcases.
  destruct Hcases as [(_ & Hr')|[(_ & _ & Hr')|(_ & _ & Hr')]]; [done..|].
  injection Hr' as -> ->. cbn [log w_fs].
  destruct (mkdir_parents_keeps _ _ _ Hmk) as (Hsub & _).
  set (g := input_dir cfg ++ mid ++ [stem +:+ ".glb"]) in *.
  assert (Hg : g ∈ rglob_sorted fs (input_dir cfg)).
  { apply elem_of_rglob_sorted, elem_of_glb_set_name. split; [|by eauto].
    destruct Hthere as [entry Hentry]. exists entry.
    by apply (lookup_weaken _ _ _ _ Hentry). }
  destruct (rglob_sorted_files fs (input_dir cfg)) as [Hunder Hexist].
  destruct (batch_loop_run1 import_gltf export_gltf cfg _ (mkCounters 0 0 0)
              (log (LogHeader (input_dir cfg) (output_dir cfg) (max_size cfg)
                              (length (rglob_sorted fs (input_dir cfg))))
                   (mkWorld fs (w_doc w) (w_log w)))
              Hunder Hexist) as (_ & _ & _ & _ & Hall).
  cbv zeta in Hall. specialize (Hall Hfailed).
  rewrite Forall_forall in Hall. specialize (Hall g Hg).
  unfold out_file, g in Hall. by rewrite drop_app_length in Hall.
Qed.

(** ** The files a run writes *)

Lemma elem_of_files_of (fs : gmap Path (Entry FileData)) (q : Path) :
  q ∈ files_of fs ↔ is_file fs q = true.
Proof.
  unfold files_of. rewrite elem_of_filter, elem_of_dom. split; [by intros [? _]|].
  intros Hf. split; [done|]. unfold is_file in Hf.
  destruct (fs !! q); [by eexists|done].
Qed.

Lemma files_of_same (fs fs' : gmap Path (Entry FileData)) :
  (∀ q, is_file fs' q = is_file fs q) → files_of fs' = files_of fs.
Proof.
  intros Hsame. apply set_eq. intros q. by rewrite !elem_of_files_of, Hsame.
Qed.

(** Each file that is processed adds one file, and no other step adds
    or removes one. *)
Lemma batch_step_files (cfg : Config) (c : Counters) (w : World FileData)
    (g : Path) :
  let r := batch_step cfg (c, w) g in
  (size (files_of (w_fs r.2)) + processed c
   = size (files_of (w_fs w)) + processed r.1)%nat.
Proof.
  intros r. subst r. unfold batch_step.
  destruct (path_exists (w_fs w) (out_file cfg g)) eqn:Hex.
  { cbn [fst snd log w_fs processed]. done. }
  apply path_exists_false in Hex.
  destruct (process_model_inv g (out_file cfg g) (max_size cfg) w)
    as [(e & _ & Hr)|(doc & _ & Hcases)].
  { rewrite Hr. cbn [fst snd log w_fs processed]. done. }
  cbv zeta in Hcases.
  destruct Hcases as [(e & _ & ->)|(fs & Hmk & [(e & _ & ->)|(data & _ & _ & ->)])];
    cbn [fst snd log w_fs processed].
  - done.
  - destruct (mkdir_parents_keeps _ _ _ Hmk) as (_ & Hsame & _).
    by rewrite (files_of_same _ _ Hsame).
  - destruct (mkdir_parents_keeps _ _ _ Hmk) as (_ & Hsame & _).
    assert (Hnew : files_of (<[out_file cfg g := File data]> fs)
                   = {[ out_file cfg g ]} ∪ files_of (w_fs w)).
    { apply set_eq. intros q.
      rewrite elem_of_union, elem_of_singleton, !elem_of_files_of, <- Hsame.
      unfold is_file at 1. destruct (decide (q = out_file cfg g)) as [->|Hne].
      - rewrite lookup_insert_eq. tauto.
      - rewrite lookup_insert_ne by done. fold (is_file fs q). tauto. }
    rewrite Hnew, size_union, size_singleton; [lia|].
    apply disjoint_singleton_l. rewrite elem_of_files_of. unfold is_file.
    by rewrite Hex.
Qed.

Lemma batch_loop_files (cfg : Config) (glb_files : list Path)
    (acc : Counters * World FileData) :
  let r := batch_loop cfg glb_files acc in
  (size (files_of (w_fs r.2)) + processed acc.1
   = size (files_of (w_fs acc.2)) + processed r.1)%nat.
Proof.
  revert acc. induction glb_files as [|g files IH]; intros [c w]; [done|].
  change (batch_loop cfg (g :: files) (c, w))
    with (batch_loop cfg files (batch_step cfg (c, w) g)).
  pose proof (IH (batch_step cfg (c, w) g)) as H1.
  pose proof (batch_step_files cfg c w g) as H2.
  cbv zeta in *. cbn [fst snd] in *. lia.
Qed.

(** X21.  The files a run writes are as many as it counts as processed:
    the file system after a run that reaches its summary holds the files
    it held and [Processed] more. *)
Theorem processed_counts_new_files (cfg : Config) (w w' : World FileData)
    (c : Counters) :
  run_batch cfg w = (Summary c, w') →
  size (files_of (w_fs w')) = (size (files_of (w_fs w)) + processed c)%nat.
Proof.
  intros Hr.
  destruct (run_batch_inv cfg w) as [(e & _ & Hr')|(fs & Hmk & Hcases)].
  { congruence. }
  cbv zeta in Hcases. rewrite Hr in Hcases.
  destruct Hcases as [(_ & Hr')|[(_ & _ & Hr')|(_ & _ & Hr')]]; [done..|].
  injection Hr' as -> ->. cbn [log w_fs].
  destruct (mkdir_parents_keeps _ _ _ Hmk) as (_ & Hsame & _).
  pose proof (batch_loop_files cfg (rglob_sorted fs (input_dir cfg))
                (mkCounters 0 0 0,
                 log (LogHeader (input_dir cfg) (output_dir cfg) (max_size cfg)
                                (length (rglob_sorted fs (input_dir cfg))))
                     (mkWorld fs (w_doc w) (w_log w)))) as Hfiles.
  cbv zeta in Hfiles. cbn [fst snd log w_fs processed] in Hfiles.
  rewrite (files_of_same _ _ Hsame) in Hfiles. lia.
Qed.

(** X22.  The run returns early, as for an empty input, exactly when the
    output directory could be made, the input directory then exists, and
    no entry below it is named [*.glb]; it then prints its one line,
    leaves the host document alone and makes no file. *)
Theorem no_files_found (cfg : Config) (w : World FileData) :
  ((run_batch cfg w).1 = NoFiles ↔
   ∃ fs, mkdir_parents (output_dir cfg) (w_fs w) = Ok fs ∧
         is_Some (fs !! input_dir cfg) ∧
         ∀ mid stem, fs !! (input_dir cfg ++ mid ++ [stem +:+ ".glb"]) = None) ∧
  ((run_batch cfg w).1 = NoFiles →
   w_log (run_batch cfg w).2 = w_log w ++ [LogNoFiles (input_dir cfg)] ∧
   w_doc (run_batch cfg w).2 = w_doc w ∧
   ∀ q, is_file (w_fs (run_batch cfg w).2) q = is_file (w_fs w) q).
Proof.
  destruct (run_batch_inv cfg w) as [(e0 & Hmk & ->)|(fs & Hmk & Hcases)];
    cbn [fst snd].
  { split; [|done]. split; [done|]. intros (fs & Hfs & _). congruence. }
  assert (Hempty : rglob_sorted fs (input_dir cfg) = [] ↔
            ∀ mid stem, fs !! (input_dir cfg ++ mid ++ [stem +:+ ".glb"]) = None).
  { split.
    - intros Hnil mid stem.
      destruct (fs !! (input_dir cfg ++ mid ++ [stem +:+ ".glb"])) as [entry|] eqn:Hg;
        [exfalso|done].
      assert (Hin : input_dir cfg ++ mid ++ [stem +:+ ".glb"]
                    ∈ rglob_sorted fs (input_dir cfg)).
      { apply elem_of_rglob_sorted, elem_of_glb_set_name. split; [|by eauto].
        by rewrite Hg. }
      rewrite Hnil in Hin. by apply elem_of_nil in Hin.
    - intros Hnone. apply elem_of_nil_inv. intros g Hg.
      apply elem_of_rglob_sorted, elem_of_glb_set_name in Hg
        as ([entry Hentry] & mid & stem & ->).
      by rewrite Hnone in Hentry. }
  destruct (mkdir_parents_keeps _ _ _ Hmk) as (_ & Hsame & _).
  cbv zeta in Hcases.
  destruct Hcases as [(Hno & ->)|[(Hyes & Hnil & ->)|(Hyes & Hfiles & ->)]];
    cbn [fst snd log w_fs w_doc w_log].
  - split; [|done]. split; [done|]. intros (fs' & Hfs' & Hyes & _).
    assert (fs' = fs) as -> by congruence. rewrite Hno in Hyes. by destruct Hyes.
  - split; [|done]. split; [|done]. intros _. exists fs.
    split; [done|]. split; [done|]. by apply Hempty.
  - split; [|done]. split; [done|]. intros (fs' & Hfs' & _ & Hnone).
    assert (fs' = fs) as -> by congruence. by apply Hempty in Hnone.
Qed.


End BatchProperties.

(** ** The further properties at work *)

(** A decidable fact about concrete data, by running its decision. *)
Ltac by_computation := apply (bool_decide_unpack _); vm_compute; exact I.

Lemma resize_image_power_of_two_witness :
  let img := mkImage "tex" (2048, 1024) true in
  resize_image img 512
  = Ok (true, mkImage (img_name img) (stated_new_size 2048 1024 512) true) ∧
  stated_new_size 2048 1024 512
  = if 1024 <=? 2048 then (512, Z.max 1 (1024 / 2 ^ 2))
    else (Z.max 1 (2048 / 2 ^ 2), 512).
Proof.
  intros img.
  apply (resize_image_power_of_two img 2048 1024 512 2);
    [reflexivity | unfold INT_MAX; lia | unfold INT_MAX; lia | lia | lia
    | reflexivity | reflexivity].
Defined.


Lemma resize_image_raises_iff_witness :
  resize_image tex_broken 512 = Raise RuntimeError ↔
  RuntimeError = RuntimeError ∧ img_has_data tex_broken = false ∧
  0 < (img_size tex_broken).1 ∧ 0 < (img_size tex_broken).2 ∧
  (512 < (img_size tex_broken).1 ∨ 512 < (img_size tex_broken).2).
Proof.
  apply (resize_image_raises_iff tex_broken 512 RuntimeError);
    [vm_compute; discriminate | vm_compute; discriminate | lia].
Defined.

Lemma parse_cli_args_entries_witness :
  ("--output" = "--input" ∨ "--output" = "--output" ∨ "--output" = "--max_size") ∧
  ∃ pre mid post,
    ("--" ∉ pre) ∧
    argv_two_models = pre ++ "--" :: mid ++ "--output" :: "/d/out" :: post.
Proof.
  apply (parse_cli_args_entries argv_two_models
           (<["--input" := "/d/in"]>
              (<["--output" := "/d/out"]> (∅ : gmap string string)))
           "--output" "/d/out");
    vm_compute; reflexivity.
Defined.

Lemma parse_cli_args_raises_witness :
  ∃ token,
    (token = "--input" ∨ token = "--output" ∨ token = "--max_size") ∧
    last ["blender"; "--"; "--max_size"; "64"; "--input"] = Some token ∧
    ValueError "Missing value for --input"
    = ValueError ("Missing value for " +:+ token).
Proof.
  apply (parse_cli_args_raises ["blender"; "--"; "--max_size"; "64"; "--input"]
           (ValueError "Missing value for --input")).
  vm_compute. reflexivity.
Defined.

Lemma parse_cli_args_pairs_witness :
  let pairs := [("--max_size", "256"); ("--input", "--output");
                ("--max_size", "128")] in
  parse_cli_args (["blender"; "-b"] ++ "--" :: flat_map (λ kv, [kv.1; kv.2]) pairs)
  = Ok (list_to_map (reverse pairs)) ∧
  (list_to_map (reverse pairs) : gmap string string) !! "--max_size" = Some "128".
Proof.
  intros pairs. split; [|vm_compute; reflexivity].
  apply (parse_cli_args_pairs ["blender"; "-b"] pairs).
  - by_computation.
  - repeat constructor.
Defined.

Lemma parse_cli_args_ignores_witness :
  parse_cli_args ["blender"; "--input"; "x"] = Ok ∅ ∧
  parse_cli_args (["blender"; "--input"; "x"] ++ "--" :: ["--"; "extra"]
                  ++ ["--max_size"; "64"])
  = parse_cli_args ("--" :: ["--max_size"; "64"]).
Proof.
  apply (parse_cli_args_ignores ["blender"; "--input"; "x"] ["--"; "extra"]
           ["--max_size"; "64"]).
  - by_computation.
  - repeat constructor.
Defined.

Lemma resize_order_is_immaterial_witness :
  let images := doc_images doc_mixed in
  let order1 := [1%positive; 2%positive] in
  let order2 := [2%positive; 1%positive] in
  rs_images (resize_images 512 order1 images)
  = rs_images (resize_images 512 order2 images) ∧
  rs_count (resize_images 512 order1 images)
  = rs_count (resize_images 512 order2 images) ∧
  rs_log (resize_images 512 order1 images)
  ≡ₚ rs_log (resize_images 512 order2 images).
Proof.
  intros images order1 order2.
  apply (resize_order_is_immaterial 512 order1 order2 images).
  - by_computation.
  - apply perm_swap.
Defined.

Lemma process_model_log_witness :
  let p := ["d"; "in"; "m.glb"] in
  let out := ["d"; "out"; "m.glb"] in
  let r := process_model model_import model_export p out 512 world_mixed in
  ∃ lines,
    lines ≡ₚ image_line 512 (doc_images doc_mixed)
              <$> elements (images_to_resize doc_mixed) ∧
    w_log r.2
    = w_log world_mixed ++ [LogProcessing p] ++ lines
      ++ [LogTexturesResized (length (filter is_resized_line lines))]
      ++ (if r.1 is Ok _ then [LogExported out] else []).
Proof.
  intros p out r.
  apply (process_model_log model_import model_export p out 512 world_mixed doc_mixed).
  vm_compute. reflexivity.
Defined.

Lemma process_model_fits_bound_witness :
  let p := ["d"; "in"; "m.glb"] in
  let out := ["d"; "out"; "m.glb"] in
  ∃ img',
    doc_images (w_doc (process_model model_import model_export p out 512
                         world_mixed).2) !! 1%positive = Some img' ∧
    img_name img' = img_name tex_body ∧
    1 ≤ (img_size img').1 ≤ 512 ∧ 1 ≤ (img_size img').2 ≤ 512.
Proof.
  intros p out.
  apply (process_model_fits_bound model_import model_export p out 512 world_mixed
           doc_mixed 1%positive tex_body).
  - vm_compute. reflexivity.
  - lia.
  - by_computation.
  - vm_compute. reflexivity.
  - vm_compute. split; [reflexivity|discriminate].
  - vm_compute. split; [reflexivity|discriminate].
  - reflexivity.
Defined.

Lemma process_model_success_witness :
  let p := ["d"; "in"; "m.glb"] in
  let out := ["d"; "out"; "m.glb"] in
  let w' := (process_model model_import model_export p out 512 world_mixed).2 in
  ∃ doc data,
    import_file model_import (w_fs world_mixed) p = Ok doc ∧
    doc_materials (w_doc w') = doc_materials doc ∧
    dom (doc_images (w_doc w')) = dom (doc_images doc) ∧
    model_export (w_doc w') = Ok data ∧
    w_fs w' !! out = Some (File data) ∧
    (∀ q, q ≠ out → is_file (w_fs w') q = is_file (w_fs world_mixed) q) ∧
    (∀ q entry, q ≠ out → w_fs world_mixed !! q = Some entry →
                w_fs w' !! q = Some entry).
Proof.
  intros p out w'.
  apply (process_model_success model_import model_export p out 512 world_mixed w').
  vm_compute. reflexivity.
Defined.

Lemma process_model_failure_writes_no_file_witness :
  let p := ["d"; "in"; "bad.glb"] in
  let out := ["d"; "out"; "bad.glb"] in
  let w' := (process_model model_import model_export p out 512 world_garbage).2 in
  w_fs world_garbage ⊆ w_fs w' ∧
  (∀ q, is_file (w_fs w') q = is_file (w_fs world_garbage) q) ∧
  (∀ q, is_Some (w_fs w' !! q) →
        is_Some (w_fs world_garbage !! q) ∨ q `prefix_of` parent out).
Proof.
  intros p out w'.
  apply (process_model_failure_writes_no_file model_import model_export p out 512
           world_garbage w' RuntimeError).
  vm_compute. reflexivity.
Defined.


Lemma every_file_is_reported_witness :
  let r := run_batch model_import model_export cfg_two_models world_two_models in
  r.1 = Summary (mkCounters 2 0 0) ∧
  (∃ fs, mkdir_parents (output_dir cfg_two_models) (w_fs world_two_models) = Ok fs ∧
         ∀ g, g ∈ rglob_sorted fs (input_dir cfg_two_models) →
              reported cfg_two_models g (w_log r.2)) ∧
  last (w_log r.2) = Some (LogSummary 2 0 0).
Proof.
  intros r. split; [vm_compute; reflexivity|].
  apply (every_file_is_reported model_import model_export cfg_two_models
           world_two_models r.2 (mkCounters 2 0 0)).
  vm_compute. reflexivity.
Defined.

Lemma main_defaults_witness :
  let argv := ["blender"; "-b"; "--input"; "/elsewhere"] in
  run_main ["d"] argv world_two_models
  = run_batch model_import model_export
      (mkConfig (["d"] ++ ["input"]) (["d"] ++ ["output"]) 512) world_two_models.
Proof.
  intros argv.
  apply (main_defaults model_import model_export decimal_int split_path
           ["d"] argv world_two_models).
  by_computation.
Defined.

Lemma outputs_mirror_inputs_witness :
  let r := run_batch model_import model_export cfg_two_models world_two_models in
  is_Some (w_fs r.2 !! (output_dir cfg_two_models ++ ["a"] ++ ["model1" +:+ ".glb"])).
Proof.
  intros r.
  apply (outputs_mirror_inputs model_import model_export cfg_two_models
           world_two_models r.2 (mkCounters 2 0 0) ["a"] "model1").
  - vm_compute. reflexivity.
  - reflexivity.
  - vm_compute. eexists. reflexivity.
Defined.

Lemma processed_counts_new_files_witness :
  let r := run_batch model_import model_export cfg_two_models world_two_models in
  size (files_of (w_fs r.2))
  = (size (files_of (w_fs world_two_models)) + processed (mkCounters 2 0 0))%nat ∧
  size (files_of (w_fs r.2)) = 4%nat.
Proof.
  intros r. split; [|vm_compute; reflexivity].
  apply (processed_counts_new_files model_import model_export cfg_two_models
           world_two_models r.2 (mkCounters 2 0 0)).
  vm_compute. reflexivity.
Defined.
